(** * apollo-link-gate: the serialize-key extractor and the gate/queue link

    A shallow embedding of the two source files of the repository:

    - the key extractor (walker over the operation document, extraction and
      removal of the [@serialize] directive, materialisation of the key), and
    - [DedupeLink] (src/dedupeLink.ts), the open/closed gate with its keyed
      queue, its two storage slots and the rehydration of a stored queue.

    Conventions of the embedding.
    - A script object that the code uses as a dictionary (the variables of an
      operation, [opQueue]) is the list of its own properties in the order
      the host enumerates them on creation.  Such an object is a plain
      object: it inherits the properties of the host's object prototype
      ([Js.object_prototype]), which the [in] operator and a property read
      see, and under the key [__proto__] an assignment reaches the inherited
      accessor instead of creating a property.
    - A subscription is named by its observer; its teardown runs at most
      once, when the subscriber unsubscribes or when the observer is
      completed or failed from downstream.
    - A document is an object compared by reference ([Map] keyed by the
      document, [cloneDeep]); documents live in a heap and are named by
      their address.
    - Exceptions are values of [Exn]; a function that can throw returns a
      [Result].
    - Calls that leave the link (the downstream continuation, the client,
      the console) are recorded as events of a trace. *)

From Stdlib Require Import Ascii String.
From stdpp Require Import prelude strings gmap pretty sorting.

Set Warnings "-register-all".

Local Open Scope string_scope.
Local Open Scope Z_scope.
Local Open Scope list_scope.

(** ** Exceptions *)

Inductive Exn :=
  | Error (message : string)           (* [throw new Error(message)] *)
  | InvariantError (message : string)  (* raised by the document check *)
  | TypeError (what : string).         (* property read on [undefined] *)

Inductive Result (A : Type) :=
  | Ok (a : A)
  | Throw (e : Exn).
Arguments Ok {A} a.
Arguments Throw {A} e.

Definition bindR {A B} (r : Result A) (k : A → Result B) : Result B :=
  match r with
  | Ok a => k a
  | Throw e => Throw e
  end.

Notation "x ←? r ; k" := (bindR r (λ x, k))
  (at level 20, r at level 100, k at level 200, right associativity,
   format "x  ←?  r ;  '/' k").

Definition raises {A} (r : Result A) : Prop :=
  match r with Ok _ => False | Throw _ => True end.

(** [xs.map(f)] for an [f] that may throw: the first exception aborts the
    map, elements are visited left to right. *)
Fixpoint mapR {A B} (f : A → Result B) (xs : list A) : Result (list B) :=
  match xs with
  | [] => Ok []
  | x :: xs' => y ←? f x; ys ←? mapR f xs'; Ok (y :: ys)
  end.

(** ** Values of the host language and [JSON.stringify] *)

Module Js.

(** Numbers.  An integer-valued number is kept exactly; it stands for
    the host's double as long as [|z| <= 2^53].  What the host prints for
    a parsed float literal, and for an integer beyond the exact range, is
    left to [NumberText]. *)
Inductive Number :=
  | NInt (z : Z)
  | NFloat (lexeme : string)   (* [parseFloat(lexeme)] of a float literal *)
  | NaN.

Record NumberText := {
  float_text : string → string;   (* JSON text of [parseFloat(lexeme)] *)
  big_int_text : Z → string       (* JSON text of an integer beyond 2^53 *)
}.

Inductive Value :=
  | Undefined
  | Null
  | Bool (b : bool)
  | Num (n : Number)
  | Str (s : string)
  | Arr (elements : list Value)
  | Obj (properties : list (string * Value))
  | Function.

Definition max_safe : Z := 2 ^ 53.

Definition number_text (nt : NumberText) (n : Number) : string :=
  match n with
  | NInt z => if bool_decide (Z.abs z ≤ max_safe) then pretty z
              else big_int_text nt z
  | NFloat l => float_text nt l
  | NaN => "null"
  end.

(** *** [parseInt(s, 10)] *)

Definition digit_of (c : ascii) : option Z :=
  let n := Z.of_N (N_of_ascii c) in
  if bool_decide (48 ≤ n ≤ 57) then Some (n - 48) else None.

Fixpoint digits_prefix (acc : option Z) (s : string) : option Z :=
  match s with
  | EmptyString => acc
  | String c s' =>
      match digit_of c with
      | Some d => digits_prefix (Some (10 * default 0 acc + d)) s'
      | None => acc
      end
  end.

Fixpoint skip_space (s : string) : string :=
  match s with
  | String c s' => if Ascii.is_space c then skip_space s' else s
  | EmptyString => s
  end.

Definition parseInt10 (s : string) : Number :=
  let '(sign, body) :=
    match skip_space s with
    | String "-" r => (-1, r)
    | String "+" r => (1, r)
    | r => (1, r)
    end in
  match digits_prefix None body with
  | Some n => NInt (sign * n)
  | None => NaN
  end.

Definition parseFloat (s : string) : Number := NFloat s.

(** *** Quoting of a string in JSON text *)

Definition hex_digit (n : N) : ascii :=
  ascii_of_N (if bool_decide (n < 10)%N then 48 + n else 87 + n)%N.

Definition dquote : ascii := "034"%char.

Definition quote_char (c : ascii) : string :=
  let n := N_of_ascii c in
  if bool_decide (n = 34)%N then String "\" (String dquote "")
  else if bool_decide (n = 92)%N then "\\"
  else if bool_decide (n = 8)%N then "\b"
  else if bool_decide (n = 12)%N then "\f"
  else if bool_decide (n = 10)%N then "\n"
  else if bool_decide (n = 13)%N then "\r"
  else if bool_decide (n = 9)%N then "\t"
  else if bool_decide (n < 32)%N then
    "\u00" +:+ String (hex_digit (n / 16)) (String (hex_digit (n mod 16)) "")
  else String c "".

Fixpoint quote_body (s : string) : string :=
  match s with
  | EmptyString => ""
  | String c s' => quote_char c +:+ quote_body s'
  end.

Definition quote (s : string) : string :=
  String dquote (quote_body s) +:+ String dquote "".

Fixpoint join (sep : string) (xs : list string) : string :=
  match xs with
  | [] => ""
  | [x] => x
  | x :: xs' => x +:+ sep +:+ join sep xs'
  end.

(** *** [JSON.stringify]

    [property nt v] is the text of [v] as a property value or array
    element, [None] where the host yields [undefined] (the value is left
    out of an object and printed as [null] in an array). *)
Fixpoint property (nt : NumberText) (v : Value) : option string :=
  match v with
  | Undefined | Function => None
  | Null => Some "null"
  | Bool true => Some "true"
  | Bool false => Some "false"
  | Num n => Some (number_text nt n)
  | Str s => Some (quote s)
  | Arr vs =>
      Some ("[" +:+ join "," (map (λ v, default "null" (property nt v)) vs)
                +:+ "]")
  | Obj ps =>
      Some ("{" +:+ join ","
              (omap (λ p, (λ t, quote p.1 +:+ ":" +:+ t) <$> property nt p.2) ps)
                +:+ "}")
  end.

(** [JSON.stringify(values)] of an array. *)
Definition stringify_array (nt : NumberText) (vs : list Value) : string :=
  "[" +:+ join "," (map (λ v, default "null" (property nt v)) vs) +:+ "]".

(** *** The object prototype

    The properties that a plain object inherits, with the value that a
    read yields: the methods are functions, and [__proto__] is an accessor
    that answers the prototype object itself, which has no enumerable
    property. *)
Definition object_prototype : list (string * Value) :=
  [ ("constructor", Function); ("__defineGetter__", Function);
    ("__defineSetter__", Function); ("hasOwnProperty", Function);
    ("__lookupGetter__", Function); ("__lookupSetter__", Function);
    ("isPrototypeOf", Function); ("propertyIsEnumerable", Function);
    ("toString", Function); ("valueOf", Function);
    ("__proto__", Obj []); ("toLocaleString", Function) ].

(** The name under which an assignment reaches the accessor of the
    prototype. *)
Definition PROTO : string := "__proto__".

End Js.

(** ** The operation document (the syntax tree of the query language)

    Optional fields of the tree ([directives], [arguments], [selectionSet],
    [variableDefinitions]) are [option]s: the code tests them for absence.
    The elements of an array are nodes, never holes. *)

Module Ast.

Record VariableNode := { name : string }.

Inductive ValueNode :=
  | Var (node : VariableNode)     (* kind [Variable] *)
  | IntValue (value : string)
  | FloatValue (value : string)
  | StringValue (value : string)
  | BooleanValue (value : bool)
  | NullValue
  | EnumValue (value : string)
  | ListValue (values : list ValueNode)
  | ObjectValue (fields : list (string * ValueNode)).

(** [node.kind] *)
Definition kind (v : ValueNode) : string :=
  match v with
  | Var _ => "Variable"
  | IntValue _ => "IntValue"
  | FloatValue _ => "FloatValue"
  | StringValue _ => "StringValue"
  | BooleanValue _ => "BooleanValue"
  | NullValue => "NullValue"
  | EnumValue _ => "EnumValue"
  | ListValue _ => "ListValue"
  | ObjectValue _ => "ObjectValue"
  end.

Record ArgumentNode := {
  arg_name : string;
  arg_value : ValueNode
}.

(** [argument.kind] of an argument node *)
Definition arg_kind (a : ArgumentNode) : string := "Argument".

Record DirectiveNode := {
  dir_name : string;
  dir_arguments : option (list ArgumentNode)
}.

Inductive SelectionNode :=
  | Field (field_name : string)
          (arguments : option (list ArgumentNode))
          (directives : option (list DirectiveNode))
          (selectionSet : option (list SelectionNode))
  | FragmentSpread (fragment : string)
                   (directives : option (list DirectiveNode))
  | InlineFragment (typeCondition : option string)
                   (directives : option (list DirectiveNode))
                   (selectionSet : option (list SelectionNode)).

(** A selection set node is the list of its [selections]. *)
Abbreviation SelectionSetNode := (list SelectionNode).

Definition sel_directives (s : SelectionNode) : option (list DirectiveNode) :=
  match s with
  | Field _ _ ds _ => ds
  | FragmentSpread _ ds => ds
  | InlineFragment _ ds _ => ds
  end.

Record VariableDefinitionNode := {
  variable : VariableNode;
  var_type : string
}.

Record OperationDefinitionNode := {
  operation : string;
  op_name : option string;
  op_variableDefinitions : option (list VariableDefinitionNode);
  op_directives : option (list DirectiveNode);
  op_selectionSet : option SelectionSetNode
}.

Record FragmentDefinitionNode := {
  frag_name : string;
  frag_typeCondition : string;
  frag_directives : option (list DirectiveNode);
  frag_selectionSet : option SelectionSetNode
}.

Inductive DefinitionNode :=
  | OperationDefinition (op : OperationDefinitionNode)
  | FragmentDefinition (frag : FragmentDefinitionNode)
  | OtherDefinition (kind : string).   (* a type-system definition *)

Record DocumentNode := { definitions : list DefinitionNode }.

Definition def_kind (d : DefinitionNode) : string :=
  match d with
  | OperationDefinition _ => "OperationDefinition"
  | FragmentDefinition _ => "FragmentDefinition"
  | OtherDefinition k => k
  end.

End Ast.
Export Ast.

(** ** The walker: all arguments of a document, all variables of arguments *)

(** [xs.reduce((a, b) => a.concat(b), [])], also written with spreads. *)
Definition reduce_concat {A} (xss : list (list A)) : list A :=
  foldl (λ a b, a ++ b) [] xss.

Definition getAllArgumentsFromDirectives
    (directives : option (list DirectiveNode)) : list ArgumentNode :=
  match directives with
  | None => []
  | Some ds => reduce_concat (map (λ d, default [] (dir_arguments d)) ds)
  end.

Fixpoint getAllArgumentsFromSelection (selection : SelectionNode)
    : list ArgumentNode :=
  let args := getAllArgumentsFromDirectives (sel_directives selection) in
  match selection with
  | Field _ arguments _ selectionSet =>
      let args := args ++ default [] arguments in
      args ++
        match selectionSet with
        | None => []
        | Some selections =>
            reduce_concat (map getAllArgumentsFromSelection selections)
        end
  | _ => args
  end.

Definition getAllArgumentsFromSelectionSet
    (selectionSet : option SelectionSetNode) : list ArgumentNode :=
  match selectionSet with
  | None => []
  | Some selections =>
      reduce_concat (map getAllArgumentsFromSelection selections)
  end.

Definition getAllArgumentsFromOperation (op : OperationDefinitionNode)
    : list ArgumentNode :=
  getAllArgumentsFromDirectives (op_directives op)
    ++ getAllArgumentsFromSelectionSet (op_selectionSet op).

Definition getAllArgumentsFromFragment (frag : FragmentDefinitionNode)
    : list ArgumentNode :=
  getAllArgumentsFromDirectives (frag_directives frag)
    ++ getAllArgumentsFromSelectionSet (frag_selectionSet frag).

Definition getAllArgumentsFromDocument (doc : DocumentNode)
    : list ArgumentNode :=
  reduce_concat
    (map (λ def,
            match def with
            | FragmentDefinition frag => getAllArgumentsFromFragment frag
            | OperationDefinition op => getAllArgumentsFromOperation op
            | OtherDefinition _ => []
            end)
         (definitions doc)).

Fixpoint getVariablesFromValueNode (node : ValueNode) : list VariableNode :=
  match node with
  | Var v => [v]
  | ListValue values => reduce_concat (map getVariablesFromValueNode values)
  | ObjectValue fields =>
      (* [fields.map(f => f.value).map(getVariablesFromValueNode)], the two
         maps in one pass *)
      reduce_concat (map (λ f, getVariablesFromValueNode f.2) fields)
  | _ => []
  end.

Definition getVariablesFromArguments (args : list ArgumentNode)
    : list VariableNode :=
  reduce_concat (map (λ arg, getVariablesFromValueNode (arg_value arg)) args).

(** ** The key materialiser *)

Definition DIRECTIVE_NAME : string := "serialize".

(** The variables of an operation: [None] is an absent ([undefined] or
    [null]) object, otherwise the own properties of a plain object. *)
Abbreviation Bindings := (list (string * Js.Value)).

(** The properties that a lookup on a plain object sees: its own, then the
    inherited ones. *)
Definition js_properties (variables : Bindings) : Bindings :=
  variables ++ Js.object_prototype.

(** [name in variables] *)
Definition js_in (name : string) (variables : Bindings) : bool :=
  bool_decide (name ∈ (js_properties variables).*1).

(** [variables[name]] *)
Definition js_get (name : string) (variables : Bindings) : Js.Value :=
  default Js.Undefined
    ((λ p, p.2.2) <$> list_find (λ p, p.1 = name) (js_properties variables)).

Definition getVariableOrDie (variables : option Bindings) (name : string)
    : Result Js.Value :=
  match variables with
  | Some vars =>
      if js_in name vars then Ok (js_get name vars)
      else Throw (Error ("No value supplied for variable $" +:+ name
                           +:+ " used in @serialize key"))
  | None =>
      Throw (Error ("No value supplied for variable $" +:+ name
                      +:+ " used in @serialize key"))
  end.

Definition valueForArgument (value : ValueNode) (variables : option Bindings)
    : Result Js.Value :=
  match value with
  | Var v => getVariableOrDie variables (name v)
  | IntValue s => Ok (Js.Num (Js.parseInt10 s))
  | FloatValue s => Ok (Js.Num (Js.parseFloat s))
  | StringValue s => Ok (Js.Str s)
  | BooleanValue b => Ok (Js.Bool b)
  | EnumValue s => Ok (Js.Str s)
  | _ =>
      Throw (Error ("Argument of type " +:+ kind value
                      +:+ " is not allowed in @" +:+ DIRECTIVE_NAME
                      +:+ " directive"))
  end.

(** [argumentList] is the value of the [key] argument; a node without
    [values] makes [argumentList.values.map] a type error. *)
Definition materializeKey (nt : Js.NumberText) (argumentList : ValueNode)
    (variables : option Bindings) : Result string :=
  match argumentList with
  | ListValue values =>
      vals ←? mapR (λ val, valueForArgument val variables) values;
      Ok (Js.stringify_array nt vals)
  | _ => Throw (TypeError "argumentList.values.map")
  end.

(** ** Documents as objects: the heap and the transform cache *)

Abbreviation Ref := nat.

Record ExtractResult := {
  ret_doc : Ref;                 (* [doc] *)
  ret_args : option ValueNode    (* [args], absent without a directive *)
}.

Record Store := {
  heap : list DocumentNode;
  documentCache : gmap nat ExtractResult
}.

Definition empty_store : Store := {| heap := []; documentCache := ∅ |}.

(** Code that reads and writes the store and may throw. *)
Definition M (A : Type) : Type := Store → Result A * Store.

Definition ret {A} (a : A) : M A := λ σ, (Ok a, σ).
Definition throw {A} (e : Exn) : M A := λ σ, (Throw e, σ).
Definition lift {A} (r : Result A) : M A := λ σ, (r, σ).

Definition bind {A B} (m : M A) (k : A → M B) : M B :=
  λ σ, match m σ with
       | (Ok a, σ') => k a σ'
       | (Throw e, σ') => (Throw e, σ')
       end.

Notation "'do' x <- m ; k" := (bind m (λ x, k))
  (at level 10, x name, m at level 100, k at level 200,
   format "'do'  x  <-  m ;  '/' k").
Notation "'do' ' p <- m ; k" := (bind m (λ x, let 'p := x in k))
  (at level 10, p pattern, m at level 100, k at level 200,
   format "'do'  ' p  <-  m ;  '/' k").

(** Reading through a reference. *)
Definition read (r : Ref) : M DocumentNode :=
  λ σ, match heap σ !! r with
       | Some d => (Ok d, σ)
       | None => (Throw (TypeError "dangling reference"), σ)
       end.

(** Writing a document object in place. *)
Definition write (r : Ref) (d : DocumentNode) : M unit :=
  λ σ, (Ok tt, {| heap := <[r := d]> (heap σ);
                  documentCache := documentCache σ |}).

(** [cloneDeep(doc)]: a fresh object with the same contents. *)
Definition cloneDeep (r : Ref) : M Ref :=
  do d <- read r;
  λ σ, (Ok (length (heap σ)),
        {| heap := heap σ ++ [d]; documentCache := documentCache σ |}).

Definition cache_get (r : Ref) : M (option ExtractResult) :=
  λ σ, (Ok (documentCache σ !! r), σ).

Definition cache_set (r : Ref) (v : ExtractResult) : M unit :=
  λ σ, (Ok tt, {| heap := heap σ;
                  documentCache := <[r := v]> (documentCache σ) |}).

(** *** The two utilities of the client library that the extractor calls *)

Definition is_operation (d : DefinitionNode) : option OperationDefinitionNode :=
  match d with
  | OperationDefinition op => Some op
  | _ => None
  end.

Definition is_fragment (d : DefinitionNode) : bool :=
  match d with
  | FragmentDefinition _ => true
  | _ => false
  end.

(** [checkDocument]: every definition that is no fragment must be an
    operation, and there is at most one of them. *)
Definition checkDocument (doc : DocumentNode) : Result unit :=
  operations ←?
    mapR (λ definition,
            match definition with
            | OperationDefinition op => Ok op
            | _ =>
                Throw (InvariantError
                  ("Schema type definitions not allowed in queries. Found: "
                     +:+ Js.quote (def_kind definition)))
            end)
         (filter (λ d, is_fragment d = false) (definitions doc));
  if bool_decide (length operations ≤ 1)%nat then Ok tt
  else Throw (InvariantError
         ("Ambiguous GraphQL document: contains "
            +:+ pretty (length operations) +:+ " operations")).

(** [getOperationDefinition]: the first operation definition, [undefined]
    if there is none. *)
Definition getOperationDefinition (doc : DocumentNode)
    : Result (option OperationDefinitionNode) :=
  _ ←? checkDocument doc;
  Ok (head (omap is_operation (definitions doc))).

(** Assignment to a field of the object that [getOperationDefinition]
    returns: the first operation definition of the document is replaced. *)
Fixpoint update_operation (f : OperationDefinitionNode → OperationDefinitionNode)
    (defs : list DefinitionNode) : list DefinitionNode :=
  match defs with
  | [] => []
  | OperationDefinition op :: rest => OperationDefinition (f op) :: rest
  | d :: rest => d :: update_operation f rest
  end.

Definition set_directives (ds : option (list DirectiveNode))
    (op : OperationDefinitionNode) : OperationDefinitionNode :=
  {| operation := operation op; op_name := op_name op;
     op_variableDefinitions := op_variableDefinitions op;
     op_directives := ds; op_selectionSet := op_selectionSet op |}.

Definition set_variableDefinitions (vs : option (list VariableDefinitionNode))
    (op : OperationDefinitionNode) : OperationDefinitionNode :=
  {| operation := operation op; op_name := op_name op;
     op_variableDefinitions := vs;
     op_directives := op_directives op; op_selectionSet := op_selectionSet op |}.

(** ** The directive extractor and the document rewriter *)

(** A directive node taken from the directive array of an operation is
    named by its position there: the nodes of an array are distinct
    objects, so [node !== directive] compares positions. *)
Abbreviation DirectiveRef := (nat * DirectiveNode)%type.

Definition extractDirective (query : option OperationDefinitionNode)
    (directiveName : string) : Result (option DirectiveRef) :=
  match query with
  | None => Throw (TypeError "query.directives")
  | Some q =>
      match op_directives q with
      | None => Throw (TypeError "query.directives.filter")
      | Some ds => Ok (list_find (λ node, dir_name node = directiveName) ds)
      end
  end.

(** Warning of the source: this function may modify the document in
    place. *)
Definition removeVariableDefinitionsFromDocumentIfUnused
    (names : list string) (doc : Ref) : M unit :=
  if bool_decide (length names < 1)%nat then ret tt
  else
    do d <- read doc;
    let args := getAllArgumentsFromDocument d in
    let usedNames : gset string :=
      list_to_set (map name (getVariablesFromArguments args)) in
    let filteredNames : gset string :=
      list_to_set (filter (λ n, n ∉ usedNames) names) in
    if bool_decide (size filteredNames < 1)%nat then ret tt
    else
      do op <- lift (getOperationDefinition d);
      match op with
      | None => throw (TypeError "op.variableDefinitions")
      | Some op =>
          match op_variableDefinitions op with
          | None => ret tt
          | Some defs =>
              write doc
                {| definitions :=
                     update_operation
                       (set_variableDefinitions
                          (Some (filter (λ d, name (variable d) ∉ filteredNames)
                                        defs)))
                       (definitions d) |}
          end
      end.

Definition removeDirectiveFromDocument (doc : Ref)
    (directive : option DirectiveRef) : M Ref :=
  match directive with
  | None => ret doc
  | Some (i, node) =>
      do docWithoutDirective <- cloneDeep doc;
      do original <- read doc;
      do originalOperationDefinition <- lift (getOperationDefinition original);
      do copy <- read docWithoutDirective;
      do operationDefinition <- lift (getOperationDefinition copy);
      match originalOperationDefinition, operationDefinition with
      | Some orig, Some _ =>
          match op_directives orig with
          | None => throw (TypeError "directives.filter")
          | Some ds =>
              do _ <- write docWithoutDirective
                   {| definitions :=
                        update_operation (set_directives (Some (delete i ds)))
                                         (definitions copy) |};
              match dir_arguments node with
              | None => throw (TypeError "args.map")
              | Some arguments =>
                  let removedVariableNames :=
                    map name (getVariablesFromArguments arguments) in
                  do _ <- removeVariableDefinitionsFromDocumentIfUnused
                            removedVariableNames docWithoutDirective;
                  ret docWithoutDirective
              end
          end
      | _, _ => throw (TypeError "operationDefinition.directives")
      end
  end.

Definition extractDirectiveArguments (doc : Ref) : M ExtractResult :=
  do cached <- cache_get doc;
  match cached with
  | Some hit => ret hit
  | None =>
      do d <- read doc;
      do _ <- lift (checkDocument d);
      do op <- lift (getOperationDefinition d);
      do directive <- lift (extractDirective op DIRECTIVE_NAME);
      match directive with
      | None => ret {| ret_doc := doc; ret_args := None |}
      | Some (i, node) =>
          match dir_arguments node with
          | None => throw (TypeError "directive.arguments.find")
          | Some arguments =>
              match list_find (λ a, arg_name a = "key") arguments with
              | None =>
                  throw (Error ("The @" +:+ DIRECTIVE_NAME
                                  +:+ " directive requires a 'key' argument"))
              | Some (_, argument) =>
                  if bool_decide (kind (arg_value argument) ≠ "ListValue") then
                    throw (Error ("The @" +:+ DIRECTIVE_NAME
                             +:+ " directive's 'key' argument must be of type List, got "
                             +:+ arg_kind argument))
                  else
                    do newDoc <- removeDirectiveFromDocument doc (Some (i, node));
                    let result := {| ret_doc := newDoc;
                                     ret_args := Some (arg_value argument) |} in
                    do _ <- cache_set doc result;
                    ret result
              end
          end
      end
  end.

(** ** Operations and [extractKey] *)

Record Context := {
  serializationKey : option string;   (* the override key *)
  skipQueue : bool;
  optimisticResponse : Js.Value
}.

Record Operation := {
  query : Ref;
  variables : option Bindings;
  operationName : string;
  getContext : Context
}.

Record Keyed := {
  k_operation : Operation;
  k_key : option string
}.

(** Truth of a string in a condition: absent and empty are false. *)
Definition truthy (s : option string) : bool :=
  match s with
  | Some s => bool_decide (s ≠ "")
  | None => false
  end.

Definition extractKey (nt : Js.NumberText) (operation : Operation) : M Keyed :=
  if truthy (serializationKey (getContext operation)) then
    ret {| k_operation := operation;
           k_key := serializationKey (getContext operation) |}
  else
    do r <- extractDirectiveArguments (query operation);
    match ret_args r with
    | None => ret {| k_operation := operation; k_key := None |}
    | Some args =>
        do key <- lift (materializeKey nt args (variables operation));
        let newOperation :=
          {| query := ret_doc r; variables := variables operation;
             operationName := operationName operation;
             getContext := getContext operation |} in
        ret {| k_operation := newOperation; k_key := Some key |}
    end.

(** ** Objects used as dictionaries: own properties in creation order *)

Module Dict.
Section dict.
Context {V : Type}.

Abbreviation t := (list (string * V)).

(** [obj[key]] for an own property, as for a key that [Object.keys]
    lists. *)
Definition get (key : string) (obj : t) : option V :=
  (λ p, p.2.2) <$> list_find (λ p, p.1 = key) obj.

(** Writing the own property [key]: an existing property keeps its
    place, a new one is created last. *)
Fixpoint define (key : string) (v : V) (obj : t) : t :=
  match obj with
  | [] => [(key, v)]
  | (k, w) :: rest =>
      if bool_decide (k = key) then (k, v) :: rest
      else (k, w) :: define key v rest
  end.

(** [obj[key] = v] on a plain object, for a value that is an object.  The
    assignment writes the own property, but under the key [__proto__]: an
    object without an own property of that name inherits the accessor of
    the prototype, and the assignment calls it; it replaces the prototype
    of [obj], which no code here reads, and creates no property. *)
Definition set (key : string) (v : V) (obj : t) : t :=
  if bool_decide (key = Js.PROTO ∧ key ∉ obj.*1) then obj
  else define key v obj.

(** [delete obj[key]] *)
Definition del (key : string) (obj : t) : t :=
  filter (λ p, p.1 ≠ key) obj.

(** The number that a string of decimal digits denotes. *)
Fixpoint digits (acc : N) (s : string) : option N :=
  match s with
  | EmptyString => Some acc
  | String c s' =>
      let n := N_of_ascii c in
      if bool_decide (48 ≤ n ≤ 57)%N then digits (10 * acc + (n - 48)) s'
      else None
  end.

(** An array index: the canonical decimal text of a number below
    [2^32 - 1]. *)
Definition array_index (key : string) : option N :=
  match key with
  | EmptyString => None
  | _ =>
      n ← digits 0 key;
      if bool_decide (pretty n = key ∧ (n < 2 ^ 32 - 1)%N) then Some n
      else None
  end.

(** [Object.keys(obj)]: the array indices in ascending order, then the
    other keys in creation order. *)
Definition keys (obj : t) : list string :=
  (pretty <$> merge_sort N.le (omap array_index (obj.*1)))
    ++ filter (λ k, array_index k = None) (obj.*1).

(** The properties in the order of [Object.keys], each read back with
    [obj[key]]. *)
Definition entries (obj : t) : list (string * V) :=
  omap (λ k, (λ v, (k, v)) <$> get k obj) (keys obj).
End dict.
End Dict.

(** ** The gate: [DedupeLink] *)

Abbreviation NextLink := nat.      (* a downstream continuation, by reference *)
Abbreviation Observer := nat.      (* a result sink, by reference *)

Record OperationQueueEntry := {
  entry_optimisticResponse : Js.Value;
  entry_operation : Operation;
  entry_forward : NextLink;
  entry_observer : Observer
}.

(** What [JSON.parse] reads back of a value written with [JSON.stringify];
    [None] where the property is left out. *)
Fixpoint revive (v : Js.Value) : option Js.Value :=
  match v with
  | Js.Undefined | Js.Function => None
  | Js.Num Js.NaN => Some Js.Null
  | Js.Arr vs => Some (Js.Arr (map (λ v, default Js.Null (revive v)) vs))
  | Js.Obj ps =>
      Some (Js.Obj (omap (λ p, (λ v, (p.1, v)) <$> revive p.2) ps))
  | _ => Some v
  end.

(** What is read back of a stored queue entry: the fields that
    rehydration uses.  The continuation is a function and is not stored;
    the stored observer is never read. *)
Record StoredEntry := {
  stored_optimisticResponse : Js.Value;
  stored_query : option DocumentNode;
  stored_variables : option Bindings
}.

Abbreviation Snapshot := (list (string * StoredEntry)).

Definition revive_bindings (vars : option Bindings) : option Bindings :=
  match vars with
  | Some ps =>
      Some (omap (λ p : string * Js.Value, (λ v, (p.1, v)) <$> revive p.2) ps)
  | None => None
  end.

Definition stored (σ : Store) (e : OperationQueueEntry) : StoredEntry :=
  {| stored_optimisticResponse :=
       default Js.Undefined (revive (entry_optimisticResponse e));
     stored_query := heap σ !! query (entry_operation e);
     stored_variables := revive_bindings (variables (entry_operation e)) |}.

(** [JSON.parse(JSON.stringify(opQueue))] *)
Definition snapshot (σ : Store) (q : list (string * OperationQueueEntry))
    : Snapshot :=
  map (λ p, (p.1, stored σ p.2)) (Dict.entries q).

(** Calls that leave the link. *)
Inductive Event :=
  | Forward (forward : NextLink) (operation : Operation)
            (subscriber : option Observer)
      (* [forward(operation)], followed by [.subscribe(observer)] when the
         link itself subscribes *)
  | Mutate (e : StoredEntry)          (* [client.mutate({...})] *)
  | Log (message : string).           (* [console.log(message, error)] *)

Record DedupeLink := {
  opQueue : list (string * OperationQueueEntry);
  isOpen : bool;
  store : Store;
  session_open : option string;   (* session storage, item [ald-on] *)
  local_ops : option Snapshot;    (* local storage, item [ald-ops] *)
  pending : list nat;             (* unsettled rehydration batches: the
                                     number of mutations of each *)
  observers : nat;                (* observers created so far *)
  live : list Observer;           (* the subscriptions whose teardown has
                                     not run, by observer *)
  trace : list Event              (* oldest first *)
}.

Definition with_queue (q : list (string * OperationQueueEntry))
    (l : DedupeLink) : DedupeLink :=
  {| opQueue := q; isOpen := isOpen l; store := store l;
     session_open := session_open l; local_ops := local_ops l;
     pending := pending l; observers := observers l; live := live l;
     trace := trace l |}.

Definition with_local (s : option Snapshot) (l : DedupeLink) : DedupeLink :=
  {| opQueue := opQueue l; isOpen := isOpen l; store := store l;
     session_open := session_open l; local_ops := s;
     pending := pending l; observers := observers l; live := live l;
     trace := trace l |}.

Definition with_gate (b : bool) (flag : option string) (l : DedupeLink)
    : DedupeLink :=
  {| opQueue := opQueue l; isOpen := b; store := store l;
     session_open := flag; local_ops := local_ops l;
     pending := pending l; observers := observers l; live := live l;
     trace := trace l |}.

Definition with_store (σ : Store) (l : DedupeLink) : DedupeLink :=
  {| opQueue := opQueue l; isOpen := isOpen l; store := σ;
     session_open := session_open l; local_ops := local_ops l;
     pending := pending l; observers := observers l; live := live l;
     trace := trace l |}.

Definition with_pending (p : list nat) (l : DedupeLink) : DedupeLink :=
  {| opQueue := opQueue l; isOpen := isOpen l; store := store l;
     session_open := session_open l; local_ops := local_ops l;
     pending := p; observers := observers l; live := live l;
     trace := trace l |}.

Definition with_observers (n : nat) (l : DedupeLink) : DedupeLink :=
  {| opQueue := opQueue l; isOpen := isOpen l; store := store l;
     session_open := session_open l; local_ops := local_ops l;
     pending := pending l; observers := n; live := live l;
     trace := trace l |}.

Definition with_live (os : list Observer) (l : DedupeLink) : DedupeLink :=
  {| opQueue := opQueue l; isOpen := isOpen l; store := store l;
     session_open := session_open l; local_ops := local_ops l;
     pending := pending l; observers := observers l; live := os;
     trace := trace l |}.

Definition emit (evs : list Event) (l : DedupeLink) : DedupeLink :=
  {| opQueue := opQueue l; isOpen := isOpen l; store := store l;
     session_open := session_open l; local_ops := local_ops l;
     pending := pending l; observers := observers l; live := live l;
     trace := trace l ++ evs |}.

(** What [request] returns: the observable of the downstream continuation,
    or a new observable whose subscriber function enqueues. *)
Inductive Returned :=
  | Downstream (forward : NextLink) (operation : Operation)
  | Deferred (key : string) (operation : Operation) (forward : NextLink)
             (optimisticResponse : Js.Value).

(** The subscription to a [Deferred] observable, named by its observer;
    its teardown is the function [() => this.cancelOperation(key)]. *)
Record Subscription := {
  sub_key : string;
  sub_observer : Observer
}.

Definition OPEN_ON : string := "1".
Definition OPEN_OFF : string := "0".
Definition LOG_MESSAGE : string :=
  "DedupeLink: Could not process stored mutations because of".

Section gate.
Variable nt : Js.NumberText.
(** [hasStorage]: whether the host provides [localStorage]. *)
Variable hasStorage : bool.

(** The synchronous part of [rehydrateQueue]: every stored entry is
    handed to [client.mutate]; the promise of the whole batch is left
    pending. *)
Definition rehydrateQueue (l : DedupeLink) : DedupeLink :=
  if hasStorage then
    match local_ops l with
    | Some previouslyStored =>
        let issued := map (λ p, Mutate p.2) (Dict.entries previouslyStored) in
        with_pending (pending l ++ [length issued]) (emit issued l)
    | None => l
    end
  else l.

(** The batch [i] settles; [fulfilled n] tells whether its [n]-th
    mutation succeeded.  [then]: the stored queue is removed.  [catch]:
    the failure is logged. *)
Definition settle (i : nat) (fulfilled : nat → bool) (l : DedupeLink)
    : DedupeLink :=
  match pending l !! i with
  | None => l
  | Some n =>
      let l := with_pending (delete i (pending l)) l in
      if forallb fulfilled (seq 0 n) then with_local None l
      else emit [Log LOG_MESSAGE] l
  end.

(** [new DedupeLink({client})] over the given contents of the storage. *)
Definition create (σ : Store) (session : option string)
    (local : option Snapshot) : DedupeLink :=
  rehydrateQueue
    {| opQueue := [];
       isOpen := if negb hasStorage then true
                 else bool_decide (session ≠ Some OPEN_OFF);
       store := σ; session_open := session; local_ops := local;
       pending := []; observers := 0; live := []; trace := [] |}.

Definition flush (q : list (string * OperationQueueEntry)) : list Event :=
  map (λ p, Forward (entry_forward p.2) (entry_operation p.2)
                    (Some (entry_observer p.2)))
      (Dict.entries q).

Definition open (l : DedupeLink) : DedupeLink :=
  let l := if hasStorage
           then rehydrateQueue (with_gate true (Some OPEN_ON) l)
           else with_gate true (session_open l) l in
  let l := emit (flush (opQueue l)) l in
  with_queue [] l.

Definition close (l : DedupeLink) : DedupeLink :=
  if hasStorage then with_gate false (Some OPEN_OFF) l
  else with_gate false (session_open l) l.

Definition persist (l : DedupeLink) : DedupeLink :=
  if hasStorage then with_local (Some (snapshot (store l) (opQueue l))) l
  else l.

Definition cancelOperation (key : string) (l : DedupeLink) : DedupeLink :=
  persist (with_queue (Dict.del key (opQueue l)) l).

Definition enqueue (key : string) (entry : OperationQueueEntry)
    (l : DedupeLink) : DedupeLink :=
  persist (with_queue (Dict.set key entry (opQueue l)) l).

Definition request (origOperation : Operation) (forward : NextLink)
    (l : DedupeLink) : Result Returned * DedupeLink :=
  match extractKey nt origOperation (store l) with
  | (Throw e, σ) => (Throw e, with_store σ l)
  | (Ok k, σ) =>
      let l := with_store σ l in
      let operation := k_operation k in
      match k_key k with
      | Some key =>
          if negb (truthy (Some key)) then
            (Ok (Downstream forward operation),
             emit [Forward forward operation None] l)
          else if isOpen l then
            (Ok (Downstream forward operation),
             emit [Forward forward operation None] l)
          else
            let context := getContext operation in
            if skipQueue context then
              (Ok (Downstream forward operation),
               emit [Forward forward operation None] l)
            else
              (Ok (Deferred key operation forward
                     (optimisticResponse context)), l)
      | None =>
          (Ok (Downstream forward operation),
           emit [Forward forward operation None] l)
      end
  end.

(** Subscribing to a [Deferred] observable runs its subscriber function
    with a new observer; the function that it returns is the teardown of
    the new subscription. *)
Definition subscribe (r : Returned) (l : DedupeLink)
    : option Subscription * DedupeLink :=
  match r with
  | Downstream _ _ => (None, l)
  | Deferred key operation forward optimistic =>
      let observer := observers l in
      let operationEntry :=
        {| entry_optimisticResponse := optimistic;
           entry_operation := operation;
           entry_forward := forward;
           entry_observer := observer |} in
      let l := with_live (observer :: live l)
                 (with_observers (S observer) l) in
      (Some {| sub_key := key; sub_observer := observer |},
       enqueue key operationEntry l)
  end.

(** The end of a subscription: the subscriber unsubscribes, or the observer
    is completed or failed from downstream.  The subscription is closed and
    its teardown runs; on a subscription that is closed already, and on a
    handle that no subscription returned, nothing happens. *)
Definition unsubscribe (s : Subscription) (l : DedupeLink) : DedupeLink :=
  if bool_decide (sub_observer s ∈ live l) then
    cancelOperation (sub_key s)
      (with_live (filter (λ o, o ≠ sub_observer s) (live l)) l)
  else l.

(** *** Runs of the link *)

Inductive Action :=
  | DoRequest (operation : Operation) (forward : NextLink)
      (* [request] whose observable is subscribed at once *)
  | DoSubscribe (r : Returned)
  | DoUnsubscribe (s : Subscription)
      (* the end of a subscription, by the subscriber or from downstream *)
  | DoOpen
  | DoClose
  | DoSettle (batch : nat) (fulfilled : nat → bool).

Definition step (a : Action) (l : DedupeLink) : DedupeLink :=
  match a with
  | DoRequest operation forward =>
      match request operation forward l with
      | (Ok r, l') => (subscribe r l').2
      | (Throw _, l') => l'
      end
  | DoSubscribe r => (subscribe r l).2
  | DoUnsubscribe s => unsubscribe s l
  | DoOpen => open l
  | DoClose => close l
  | DoSettle i fulfilled => settle i fulfilled l
  end.

Definition run (acts : list Action) (l : DedupeLink) : DedupeLink :=
  foldl (λ l a, step a l) l acts.
End gate.

(** * Notions used to state the properties *)

(** ** The walker, as described *)

Definition directive_arguments (directives : option (list DirectiveNode))
    : list ArgumentNode :=
  match directives with
  | None => []
  | Some ds => concat (map (λ d, default [] (dir_arguments d)) ds)
  end.

(** The arguments reachable from a selection when every nested selection
    set is descended, also the one of an inline fragment. *)
Module Reachable.
Fixpoint selection (s : SelectionNode) : list ArgumentNode :=
  match s with
  | Field _ arguments directives selectionSet =>
      directive_arguments directives ++ default [] arguments
        ++ match selectionSet with
           | None => []
           | Some ss => concat (map selection ss)
           end
  | FragmentSpread _ directives => directive_arguments directives
  | InlineFragment _ directives selectionSet =>
      directive_arguments directives
        ++ match selectionSet with
           | None => []
           | Some ss => concat (map selection ss)
           end
  end.

Definition selection_set (ss : option SelectionSetNode) : list ArgumentNode :=
  match ss with
  | None => []
  | Some ss => concat (map selection ss)
  end.

Definition definition (d : DefinitionNode) : list ArgumentNode :=
  match d with
  | OperationDefinition op =>
      directive_arguments (op_directives op) ++ selection_set (op_selectionSet op)
  | FragmentDefinition frag =>
      directive_arguments (frag_directives frag)
        ++ selection_set (frag_selectionSet frag)
  | OtherDefinition _ => []
  end.

Definition document (doc : DocumentNode) : list ArgumentNode :=
  concat (map definition (definitions doc)).
End Reachable.

(** The arguments that the walker visits: the nested selection set of a
    field is descended, a selection that is not a field contributes the
    arguments of its own directives only. *)
Module Visited.
Fixpoint selection (s : SelectionNode) : list ArgumentNode :=
  match s with
  | Field _ arguments directives selectionSet =>
      directive_arguments directives ++ default [] arguments
        ++ match selectionSet with
           | None => []
           | Some ss => concat (map selection ss)
           end
  | FragmentSpread _ directives => directive_arguments directives
  | InlineFragment _ directives _ => directive_arguments directives
  end.

Definition selection_set (ss : option SelectionSetNode) : list ArgumentNode :=
  match ss with
  | None => []
  | Some ss => concat (map selection ss)
  end.

Definition definition (d : DefinitionNode) : list ArgumentNode :=
  match d with
  | OperationDefinition op =>
      directive_arguments (op_directives op) ++ selection_set (op_selectionSet op)
  | FragmentDefinition frag =>
      directive_arguments (frag_directives frag)
        ++ selection_set (frag_selectionSet frag)
  | OtherDefinition _ => []
  end.

Definition document (doc : DocumentNode) : list ArgumentNode :=
  concat (map definition (definitions doc)).
End Visited.

(** ** The JSON text of a value, as the standard describes it

    Written from the grammar of the JSON standard and the rules of
    [JSON.stringify] for the compact form, without the functions of [Js]:
    the key of an operation is compared with this text. *)

Module Json.

(** The characters that have a two-character escape. *)
Definition escapes : list (ascii * string) :=
  [ (Js.dquote, String "\" (String Js.dquote ""));
    ("\"%char, "\\");
    ("008"%char, "\b"); ("012"%char, "\f"); ("010"%char, "\n");
    ("013"%char, "\r"); ("009"%char, "\t") ].

Definition hex_digits : string := "0123456789abcdef".

Definition hex (n : nat) : string :=
  match String.get n hex_digits with
  | Some c => String c ""
  | None => ""
  end.

(** A character inside a string: its two-character escape if it has one,
    four hexadecimal digits after [\u] for another control character,
    otherwise the character itself. *)
Definition escape (c : ascii) : string :=
  match list_find (λ e, e.1 = c) escapes with
  | Some (_, e) => e.2
  | None =>
      let n := nat_of_ascii c in
      if (n <? 32)%nat then "\u00" +:+ hex (n / 16) +:+ hex (n mod 16)
      else String c ""
  end.

Definition string_text (s : string) : string :=
  String Js.dquote (String.concat "" (map escape (list_ascii_of_string s)))
    +:+ String Js.dquote "".

(** The values that have no JSON text: a member with such a value is left
    out of an object, and an array holds [null] in its place. *)
Definition omitted (v : Js.Value) : bool :=
  match v with
  | Js.Undefined | Js.Function => true
  | _ => false
  end.

(** The text of a value as an element of an array. *)
Fixpoint text (nt : Js.NumberText) (v : Js.Value) : string :=
  match v with
  | Js.Undefined | Js.Function | Js.Null => "null"
  | Js.Bool b => if b then "true" else "false"
  | Js.Num (Js.NInt z) =>
      if decide (Z.abs z ≤ 2 ^ 53) then pretty z else Js.big_int_text nt z
  | Js.Num (Js.NFloat lexeme) => Js.float_text nt lexeme
  | Js.Num Js.NaN => "null"
  | Js.Str s => string_text s
  | Js.Arr vs => "[" +:+ String.concat "," (map (text nt) vs) +:+ "]"
  | Js.Obj ps =>
      "{" +:+ String.concat ","
                (flat_map (λ p, if omitted p.2 then []
                                else [string_text p.1 +:+ ":" +:+ text nt p.2])
                          ps)
          +:+ "}"
  end.

(** The text of the array of the given values, in their order. *)
Definition array (nt : Js.NumberText) (vs : list Js.Value) : string :=
  "[" +:+ String.concat "," (map (text nt) vs) +:+ "]".

End Json.

(** ** Resolution of a key element, as described *)

(** The integer that an integer literal of the query language denotes: the
    literal is its decimal text, or [-0]. *)
Definition int_literal (s : string) (z : Z) : Prop :=
  s = pretty z ∨ (s = "-0" ∧ z = 0).

(** A variable reference resolves to its binding, a literal to its value. *)
Inductive resolves (variables : option Bindings) : ValueNode → Js.Value → Prop :=
  | resolves_variable v bindings x :
      variables = Some bindings →
      Dict.get (name v) bindings = Some x →
      resolves variables (Var v) x
  | resolves_int s z :
      int_literal s z → resolves variables (IntValue s) (Js.Num (Js.NInt z))
  | resolves_float s : resolves variables (FloatValue s) (Js.Num (Js.NFloat s))
  | resolves_string s : resolves variables (StringValue s) (Js.Str s)
  | resolves_boolean b : resolves variables (BooleanValue b) (Js.Bool b)
  | resolves_enum s : resolves variables (EnumValue s) (Js.Str s).

(** The text [[1,"a",true]]. *)
Definition text_1_a_true : string :=
  "[1," +:+ String Js.dquote ("a" +:+ String Js.dquote ",true]").

(** ** The annotation of a document and the ways it can be wrong *)

Inductive KeyShape :=
  | NoKeyArgument
  | KeyNotList (argument : ArgumentNode)
  | KeyList (values : list ValueNode).

Definition key_shape (arguments : list ArgumentNode) : KeyShape :=
  match list_find (λ a, arg_name a = "key") arguments with
  | None => NoKeyArgument
  | Some (_, a) =>
      match arg_value a with
      | ListValue values => KeyList values
      | _ => KeyNotList a
      end
  end.

Definition the_operation (d : DocumentNode) : option OperationDefinitionNode :=
  head (omap is_operation (definitions d)).

(** The serialize annotation of the operation of a document: the first
    directive of that name, with its position. *)
Definition annotation (d : DocumentNode) : option DirectiveRef :=
  op ← the_operation d;
  ds ← op_directives op;
  list_find (λ node, dir_name node = DIRECTIVE_NAME) ds.

(** A document as the parser makes it: only operations and fragments,
    one operation, the directive and argument arrays present. *)
Definition parsed (d : DocumentNode) : Prop :=
  checkDocument d = Ok tt ∧
  ∃ op ds, the_operation d = Some op ∧ op_directives op = Some ds ∧
           Forall (λ node, is_Some (dir_arguments node)) ds.

Definition unsupported (v : ValueNode) : bool :=
  match v with
  | ListValue _ | ObjectValue _ | NullValue => true
  | _ => false
  end.

Definition bound (variables : option Bindings) (x : string) : bool :=
  match variables with
  | Some bindings => bool_decide (x ∈ bindings.*1)
  | None => false
  end.

Definition unbound (variables : option Bindings) (v : ValueNode) : bool :=
  match v with
  | Var x => negb (bound variables (name x))
  | _ => false
  end.

Definition offending (variables : option Bindings) (v : ValueNode) : bool :=
  unsupported v || unbound variables v.

(** The three fatal conditions. *)
Definition fatal (d : DocumentNode) (variables : option Bindings) : Prop :=
  ∃ i node arguments,
    annotation d = Some (i, node) ∧ dir_arguments node = Some arguments ∧
    match key_shape arguments with
    | NoKeyArgument => True
    | KeyNotList _ => True
    | KeyList values => Exists (λ v, offending variables v = true) values
    end.

(** The elements of the key list of the annotation of a document. *)
Definition key_list (d : DocumentNode) : list ValueNode :=
  match annotation d with
  | Some (_, node) =>
      match key_shape (default [] (dir_arguments node)) with
      | KeyList values => values
      | _ => []
      end
  | None => []
  end.

(** A variable that has no binding of its own in the variables object and
    bears the name of a property that every object inherits. *)
Definition inherited (variables : option Bindings) (v : ValueNode) : bool :=
  match variables, v with
  | Some bindings, Var x =>
      negb (bool_decide (name x ∈ bindings.*1))
      && bool_decide (name x ∈ Js.object_prototype.*1)
  | _, _ => false
  end.

(** The message for an offending element of the key list. *)
Definition offence (v : ValueNode) : string :=
  match v with
  | Var x => "No value supplied for variable $" +:+ name x
               +:+ " used in @serialize key"
  | v => "Argument of type " +:+ kind v
           +:+ " is not allowed in @serialize directive"
  end.

(** The message of the error, by condition. *)
Definition fatal_message (arguments : list ArgumentNode)
    (variables : option Bindings) : option string :=
  match key_shape arguments with
  | NoKeyArgument => Some "The @serialize directive requires a 'key' argument"
  | KeyNotList _ =>
      Some "The @serialize directive's 'key' argument must be of type List, got Argument"
  | KeyList values =>
      match list_find (λ v, offending variables v = true) values with
      | Some (_, Var x) =>
          Some ("No value supplied for variable $" +:+ name x
                  +:+ " used in @serialize key")
      | Some (_, v) =>
          Some ("Argument of type " +:+ kind v
                  +:+ " is not allowed in @serialize directive")
      | None => None
      end
  end.

(** ** The transform cache holds results of the extractor only *)

Definition cache_ok (σ : Store) : Prop :=
  ∀ r hit, documentCache σ !! r = Some hit →
    ∃ d i node arguments values,
      heap σ !! r = Some d ∧ parsed d ∧
      annotation d = Some (i, node) ∧ dir_arguments node = Some arguments ∧
      key_shape arguments = KeyList values ∧
      ret_args hit = Some (ListValue values) ∧
      (ret_doc hit < length (heap σ))%nat.

(** The operations that the document check collects. *)
Definition operations_of (defs : list DefinitionNode)
    : Result (list OperationDefinitionNode) :=
  mapR (λ definition,
          match definition with
          | OperationDefinition op => Ok op
          | _ =>
              Throw (InvariantError
                ("Schema type definitions not allowed in queries. Found: "
                   +:+ Js.quote (def_kind definition)))
          end)
       (filter (λ d, is_fragment d = false) defs).

Definition count_of {A} (r : Result (list A)) : Result nat :=
  match r with
  | Ok xs => Ok (length xs)
  | Throw e => Throw e
  end.

(** ** The rewritten document, as a function of the input document *)

(** The operation of [d] without its directive at position [i]. *)
Definition strip (i : nat) (d : DocumentNode) : DocumentNode :=
  {| definitions :=
       update_operation
         (λ op, set_directives (delete i <$> op_directives op) op)
         (definitions d) |}.

(** The variable names among [names] that the walker does not find in
    [d]. *)
Definition dropped (names : list string) (d : DocumentNode) : list string :=
  filter (λ n, n ∉ map name (getVariablesFromArguments
                               (getAllArgumentsFromDocument d)))
         names.

(** [d] without the declarations of the dropped names. *)
Definition prune (names : list string) (d : DocumentNode) : DocumentNode :=
  {| definitions :=
       update_operation
         (λ op, set_variableDefinitions
                  (filter (λ v, name (variable v) ∉ dropped names d)
                     <$> op_variableDefinitions op) op)
         (definitions d) |}.

Definition rewritten (i : nat) (node : DirectiveNode) (d : DocumentNode)
    : DocumentNode :=
  prune (map name (getVariablesFromArguments (default [] (dir_arguments node))))
        (strip i d).

(** The names of the variables that the operation of a document declares. *)
Definition declared (d : DocumentNode) : list string :=
  match the_operation d with
  | Some op =>
      map (λ v, name (variable v)) (default [] (op_variableDefinitions op))
  | None => []
  end.

(** ** Queue entries and the trace *)

Definition queued_observers (l : DedupeLink) : list Observer :=
  map (λ p, entry_observer p.2) (opQueue l).

(** The link keeps one property per key, and every queued entry has its
    own observer, created by an earlier subscription. *)
Definition wf_link (l : DedupeLink) : Prop :=
  NoDup (opQueue l).*1 ∧
  NoDup (queued_observers l) ∧
  Forall (λ o, o < observers l)%nat (queued_observers l).

Definition forwarded_to (o : Observer) (ev : Event) : bool :=
  match ev with
  | Forward _ _ (Some o') => bool_decide (o' = o)
  | _ => false
  end.

(** How often the entry of observer [o] is forwarded in a trace. *)
Definition forwards (o : Observer) (evs : list Event) : nat :=
  length (filter (λ ev, forwarded_to o ev = true) evs).

(** The events that happened after the state [l]. *)
Definition since (l l' : DedupeLink) : list Event :=
  drop (length (trace l)) (trace l').

Definition entry_of (key : string) (l : DedupeLink)
    : option OperationQueueEntry :=
  Dict.get key (opQueue l).


(** ** Sample documents, operations and links *)

Module Sample.

Definition nt : Js.NumberText :=
  {| Js.float_text := λ lexeme, lexeme; Js.big_int_text := λ z, pretty z |}.

Definition variable_definition (x type : string) : VariableDefinitionNode :=
  {| variable := {| name := x |}; var_type := type |}.

Definition argument (a x : string) : ArgumentNode :=
  {| arg_name := a; arg_value := Var {| name := x |} |}.

(** [@serialize(key: [$x])] *)
Definition serialize (x : string) : DirectiveNode :=
  {| dir_name := "serialize";
     dir_arguments :=
       Some [ {| arg_name := "key";
                 arg_value := ListValue [Var {| name := x |}] |} ] |}.

Definition mutation (vars : list VariableDefinitionNode)
    (ds : list DirectiveNode) (ss : SelectionSetNode) : DocumentNode :=
  {| definitions :=
       [OperationDefinition
          {| operation := "mutation"; op_name := Some "M";
             op_variableDefinitions := Some vars;
             op_directives := Some ds;
             op_selectionSet := Some ss |}] |}.

(** [mutation M($id: ID) { update(id: $id) }] *)
Definition doc_plain : DocumentNode :=
  mutation [variable_definition "id" "ID"] []
    [Field "update" (Some [argument "id" "id"]) (Some []) None].

(** [mutation M($id: ID) @serialize(key: [$id]) { update(id: $id) }] *)
Definition doc_used : DocumentNode :=
  mutation [variable_definition "id" "ID"] [serialize "id"]
    [Field "update" (Some [argument "id" "id"]) (Some []) None].

(** [mutation M($token: String) @serialize(key: [$token]) { ping }] *)
Definition doc_unused : DocumentNode :=
  mutation [variable_definition "token" "String"] [serialize "token"]
    [Field "ping" (Some []) (Some []) None].

(** [mutation M($id: ID) @serialize(key: [$id])
      { ... on Mutation { update(id: $id) } }] *)
Definition doc_inline : DocumentNode :=
  mutation [variable_definition "id" "ID"] [serialize "id"]
    [InlineFragment (Some "Mutation") (Some [])
       (Some [Field "update" (Some [argument "id" "id"]) (Some []) None])].

Definition documents : Store :=
  {| heap := [doc_plain; doc_used; doc_unused; doc_inline];
     documentCache := ∅ |}.

(** [mutation M @serialize { ping }] *)
Definition doc_no_key : DocumentNode :=
  mutation [] [ {| dir_name := "serialize"; dir_arguments := Some [] |} ]
    [Field "ping" (Some []) (Some []) None].

(** [mutation M { ping } mutation M { ping }] *)
Definition doc_two : DocumentNode :=
  {| definitions :=
       definitions (mutation [] [] [Field "ping" (Some []) (Some []) None])
         ++ definitions (mutation [] [] [Field "ping" (Some []) (Some []) None])
  |}.

Definition faulty : Store :=
  {| heap := [doc_no_key; doc_two]; documentCache := ∅ |}.

Definition plain : Context :=
  {| serializationKey := None; skipQueue := false;
     optimisticResponse := Js.Undefined |}.

Definition override (key : string) : Context :=
  {| serializationKey := Some key; skipQueue := false;
     optimisticResponse := Js.Undefined |}.

Definition operation (doc : Ref) (x v : string) (c : Context) : Operation :=
  {| query := doc; variables := Some [(x, Js.Str v)];
     operationName := "M"; getContext := c |}.

(** A link made while the session flag says closed, nothing stored. *)
Definition closed_link (hasStorage : bool) : DedupeLink :=
  close hasStorage (create hasStorage documents None None).

(** Two operations of key [k1] queued one after the other on the closed
    link, with continuations 7 and 8. *)
Definition first : Returned :=
  Deferred "k1" (operation 0 "id" "1" (override "k1")) 7 Js.Undefined.
Definition second : Returned :=
  Deferred "k1" (operation 0 "id" "2" (override "k1")) 8 Js.Undefined.

Definition one_queued (hasStorage : bool) : DedupeLink :=
  (subscribe hasStorage first (closed_link hasStorage)).2.

Definition two_queued (hasStorage : bool) : DedupeLink :=
  (subscribe hasStorage second (one_queued hasStorage)).2.

(** An operation with the override key [__proto__], deferred on the closed
    link with continuation 7, and the link after the subscription. *)
Definition hidden : Returned :=
  Deferred "__proto__" (operation 0 "id" "1" (override "__proto__")) 7
    Js.Undefined.

Definition hidden_queued (hasStorage : bool) : DedupeLink :=
  (subscribe hasStorage hidden (closed_link hasStorage)).2.

End Sample.

(** ** Further notions: occurrences, documents of fields, stored queues *)

(** The variable [x] occurs in a value, at any depth of list and object
    literals. *)
Inductive occurs (x : VariableNode) : ValueNode → Prop :=
  | occurs_here : occurs x (Var x)
  | occurs_list values v :
      v ∈ values → occurs x v → occurs x (ListValue values)
  | occurs_object fields f :
      f ∈ fields → occurs x f.2 → occurs x (ObjectValue fields).

(** A selection without inline fragment, at any depth. *)
Fixpoint fields_only (s : SelectionNode) : bool :=
  match s with
  | Field _ _ _ selectionSet =>
      match selectionSet with
      | None => true
      | Some ss => forallb fields_only ss
      end
  | FragmentSpread _ _ => true
  | InlineFragment _ _ _ => false
  end.

Definition fields_only_set (ss : option SelectionSetNode) : bool :=
  match ss with
  | None => true
  | Some ss => forallb fields_only ss
  end.

Definition fields_only_definition (d : DefinitionNode) : bool :=
  match d with
  | OperationDefinition op => fields_only_set (op_selectionSet op)
  | FragmentDefinition frag => fields_only_set (frag_selectionSet frag)
  | OtherDefinition _ => true
  end.

(** A document without inline fragment. *)
Definition fields_only_document (d : DocumentNode) : bool :=
  forallb fields_only_definition (definitions d).

(** The names of the variables that occur in the arguments of a
    directive. *)
Definition annotation_variables (node : DirectiveNode) : list string :=
  map name (getVariablesFromArguments (default [] (dir_arguments node))).

(** The names of the variables referenced anywhere in a document. *)
Definition referenced (d : DocumentNode) : list string :=
  map name (getVariablesFromArguments (Reachable.document d)).

(** How many directives of the operation are named [serialize]. *)
Definition serialize_count (d : DocumentNode) : nat :=
  match the_operation d with
  | Some op =>
      length (filter (λ node, dir_name node = DIRECTIVE_NAME)
                     (default [] (op_directives op)))
  | None => 0
  end.

(** What the caller of [extractKey] learns about the key: the key, that
    there is none, or the error. *)
Definition answer (r : Result Keyed) : Result (option string) :=
  match r with
  | Ok k => Ok (k_key k)
  | Throw e => Throw e
  end.

(** The cache holds what the extractor computes: under a document with
    annotation, the key list of the annotation and the address of the
    rewritten document. *)
Definition cache_exact (σ : Store) : Prop :=
  ∀ r hit, documentCache σ !! r = Some hit →
    ∃ d i node arguments values,
      heap σ !! r = Some d ∧ parsed d ∧
      annotation d = Some (i, node) ∧ dir_arguments node = Some arguments ∧
      key_shape arguments = KeyList values ∧
      ret_args hit = Some (ListValue values) ∧
      heap σ !! ret_doc hit = Some (rewritten i node d).

(** The stored snapshot is the one of the queue in memory, as [enqueue]
    and [cancelOperation] leave it where storage is available. *)
Definition mirrored (l : DedupeLink) : Prop :=
  local_ops l = Some (snapshot (store l) (opQueue l)).

(** The entry that a subscription to a deferred operation makes. *)
Definition entry_for (operation : Operation) (forward : NextLink)
    (optimistic : Js.Value) (observer : Observer) : OperationQueueEntry :=
  {| entry_optimisticResponse := optimistic; entry_operation := operation;
     entry_forward := forward; entry_observer := observer |}.

(** * Properties *)

(** ** The walker *)

Section walker.

Lemma foldl_app_concat {A} (acc : list A) (xss : list (list A)) :
  foldl (λ a b, a ++ b) acc xss = acc ++ concat xss.
Proof.
  revert acc. induction xss as [|xs xss IH]; intros acc; simpl.
  - by rewrite app_nil_r.
  - by rewrite IH, app_assoc.
Qed.

Lemma reduce_concat_concat {A} (xss : list (list A)) :
  reduce_concat xss = concat xss.
Proof. unfold reduce_concat. by rewrite foldl_app_concat. Qed.

Lemma directives_visited ds :
  getAllArgumentsFromDirectives ds = directive_arguments ds.
Proof. destruct ds; simpl; [apply reduce_concat_concat | done]. Qed.

Lemma selection_visited :
  ∀ s, getAllArgumentsFromSelection s = Visited.selection s.
Proof.
  fix IH 1. intros [f args ds ss | f ds | t ds ss]; simpl.
  - rewrite directives_visited, <- app_assoc. do 2 f_equal.
    destruct ss as [ss|]; [|done].
    rewrite reduce_concat_concat. f_equal.
    induction ss as [|s ss IHss]; simpl; [done|].
    by rewrite IH, IHss.
  - apply directives_visited.
  - apply directives_visited.
Qed.

Lemma selection_set_visited ss :
  getAllArgumentsFromSelectionSet ss = Visited.selection_set ss.
Proof.
  destruct ss as [ss|]; simpl; [|done].
  rewrite reduce_concat_concat. f_equal.
  induction ss as [|s ss IH]; simpl; [done|].
  by rewrite selection_visited, IH.
Qed.

Lemma document_visited doc :
  getAllArgumentsFromDocument doc = Visited.document doc.
Proof.
  unfold getAllArgumentsFromDocument, Visited.document.
  rewrite reduce_concat_concat. f_equal.
  induction (definitions doc) as [|d ds IH]; simpl; [done|].
  rewrite IH. f_equal.
  destruct d as [op|frag|k]; simpl; [| |done].
  - unfold getAllArgumentsFromOperation.
    by rewrite directives_visited, selection_set_visited.
  - unfold getAllArgumentsFromFragment.
    by rewrite directives_visited, selection_set_visited.
Qed.

End walker.

(** C8: the code at the failing input.  In [Sample.doc_inline] the field
    [update(id: $id)] is nested in an inline fragment.  Its argument is
    among the arguments of the document, and the walker, which descends the
    selection set of a field only, does not return it. *)
Lemma walker_skips_inline_fragment :
  Reachable.document Sample.doc_inline
  = [ {| arg_name := "key"; arg_value := ListValue [Var {| name := "id" |}] |};
      Sample.argument "id" "id" ] ∧
  getAllArgumentsFromDocument Sample.doc_inline
  = [ {| arg_name := "key"; arg_value := ListValue [Var {| name := "id" |}] |} ] ∧
  getAllArgumentsFromDocument Sample.doc_inline
  ≠ Reachable.document Sample.doc_inline.
Proof. repeat split. discriminate. Qed.

(** ** Integer literals *)

Section integers.

Lemma digit_of_char d :
  (d < 10)%N → Js.digit_of (pretty_N_char d) = Some (Z.of_N d).
Proof.
  intros Hd.
  assert (d = 0 ∨ d = 1 ∨ d = 2 ∨ d = 3 ∨ d = 4 ∨ d = 5 ∨ d = 6 ∨ d = 7
          ∨ d = 8 ∨ d = 9)%N as Hcases by lia.
  by repeat destruct Hcases as [->|Hcases]; [..|subst].
Qed.

Lemma parseInt10_digit d r :
  (d < 10)%N →
  Js.parseInt10 (String (pretty_N_char d) r)
  = match Js.digits_prefix None (String (pretty_N_char d) r) with
    | Some n => Js.NInt (1 * n)
    | None => Js.NaN
    end.
Proof.
  intros Hd.
  assert (d = 0 ∨ d = 1 ∨ d = 2 ∨ d = 3 ∨ d = 4 ∨ d = 5 ∨ d = 6 ∨ d = 7
          ∨ d = 8 ∨ d = 9)%N as Hcases by lia.
  by repeat destruct Hcases as [->|Hcases]; [..|subst].
Qed.

Lemma parseInt10_minus r :
  Js.parseInt10 (String "-" r)
  = match Js.digits_prefix None r with
    | Some n => Js.NInt (-1 * n)
    | None => Js.NaN
    end.
Proof. done. Qed.

Lemma digits_prefix_go x s :
  (0 < x)%N →
  Js.digits_prefix None (pretty_N_go x s)
  = Js.digits_prefix (Some (Z.of_N x)) s.
Proof.
  revert s. induction (N.lt_wf_0 x) as [x _ IH]. intros s Hx.
  rewrite pretty_N_go_step by done.
  destruct (N.eq_0_gt_0_cases (x `div` 10)) as [Hq|Hq].
  - rewrite Hq, pretty_N_go_0. cbn [Js.digits_prefix].
    rewrite digit_of_char by (apply N.mod_lt; lia).
    do 2 f_equal. cbn [default from_option id].
    apply N.div_small_iff in Hq; [|lia].
    rewrite N.mod_small by done. lia.
  - rewrite IH by (try apply N.div_lt; lia). cbn [Js.digits_prefix].
    rewrite digit_of_char by (apply N.mod_lt; lia).
    do 2 f_equal. cbn [default from_option id].
    pose proof (N.div_mod x 10 ltac:(done)) as Hdm.
    revert Hdm. generalize (x `div` 10)%N (x `mod` 10)%N. unfold id. lia.
Qed.

Lemma pretty_N_go_head x s :
  (0 < x)%N →
  ∃ d r, (d < 10)%N ∧ pretty_N_go x s = String (pretty_N_char d) r.
Proof.
  revert s. induction (N.lt_wf_0 x) as [x _ IH]. intros s Hx.
  rewrite pretty_N_go_step by done.
  destruct (N.eq_0_gt_0_cases (x `div` 10)) as [Hq|Hq].
  - rewrite Hq, pretty_N_go_0. eexists _, _. split; [|done].
    apply N.mod_lt. lia.
  - apply IH; [|done]. apply N.div_lt; lia.
Qed.

Lemma parseInt10_pretty z : Js.parseInt10 (pretty z) = Js.NInt z.
Proof.
  destruct z as [|p|p]; [done|..].
  - unfold pretty, pretty_Z, pretty, pretty_positive, pretty, pretty_N.
    rewrite decide_False by done.
    destruct (pretty_N_go_head (N.pos p) "") as (d & r & Hd & Hr); [lia|].
    rewrite Hr, parseInt10_digit, <- Hr, digits_prefix_go by (done || lia).
    cbn [Js.digits_prefix]. done.
  - unfold pretty, pretty_Z, pretty, pretty_positive, pretty, pretty_N.
    rewrite decide_False by done.
    change ("-" +:+ ?r) with (String "-" r).
    rewrite parseInt10_minus, digits_prefix_go by lia. done.
Qed.

Lemma integers_resolve variables zs :
  mapR (λ val, valueForArgument val variables)
       (map (λ z : Z, IntValue (pretty z)) zs)
  = Ok (map (λ z, Js.Num (Js.NInt z)) zs).
Proof.
  induction zs as [|z zs IH]; [done|]. cbn [map mapR valueForArgument].
  rewrite IH, parseInt10_pretty. done.
Qed.

End integers.

(** ** The key materialiser *)

Section materialiser.

Lemma mapR_Forall2 {A B} (f : A → Result B) xs ys :
  Forall2 (λ x y, f x = Ok y) xs ys → mapR f xs = Ok ys.
Proof.
  induction 1 as [|x y xs ys Hx _ IH]; simpl; [done|].
  by rewrite Hx; simpl; rewrite IH.
Qed.

Lemma get_in {V} key (obj : list (string * V)) v :
  Dict.get key obj = Some v → key ∈ obj.*1.
Proof.
  unfold Dict.get. intros H.
  destruct (list_find _ obj) as [[i [k w]]|] eqn:Hf; [|done].
  apply list_find_Some in Hf as (Hi & Hk & _). simpl in *. subst k.
  apply list_elem_of_fmap. exists (key, w). split; [done|].
  by eapply list_elem_of_lookup_2.
Qed.

(** An own property hides an inherited one. *)
Lemma getVariableOrDie_bound bindings x v :
  Dict.get x bindings = Some v →
  getVariableOrDie (Some bindings) x = Ok v.
Proof.
  intros H. pose proof (get_in _ _ _ H) as Hin.
  unfold getVariableOrDie, js_in, js_get, js_properties.
  rewrite bool_decide_eq_true_2 by (rewrite fmap_app, elem_of_app; by left).
  unfold Dict.get in H.
  destruct (list_find _ bindings) as [[i [k w]]|] eqn:Hf; [|done].
  rewrite (list_find_app_l _ _ _ _ _ Hf). simpl in *. congruence.
Qed.

(** A name that is neither an own nor an inherited property. *)
Lemma getVariableOrDie_unbound bindings x :
  x ∉ bindings.*1 → x ∉ Js.object_prototype.*1 →
  getVariableOrDie (Some bindings) x
  = Throw (Error ("No value supplied for variable $" +:+ x
                    +:+ " used in @serialize key")).
Proof.
  intros Hown Hinh. unfold getVariableOrDie, js_in, js_properties.
  rewrite bool_decide_eq_false_2; [done|].
  rewrite fmap_app, elem_of_app. tauto.
Qed.

Lemma lookup_None {V} key (obj : list (string * V)) :
  key ∉ obj.*1 → list_find (λ p, p.1 = key) obj = None.
Proof.
  intros Hnot. apply list_find_None, Forall_forall. intros [k w] Hin Hk.
  simpl in Hk. subst. apply Hnot. by apply (list_elem_of_fmap_2 fst _ (key, w)).
Qed.

(** An inherited name without own property: the inherited value. *)
Lemma getVariableOrDie_inherited bindings x :
  x ∉ bindings.*1 → x ∈ Js.object_prototype.*1 →
  getVariableOrDie (Some bindings) x
  = Ok (if decide (x = Js.PROTO) then Js.Obj [] else Js.Function).
Proof.
  intros Hown Hinh. unfold getVariableOrDie, js_in, js_get, js_properties.
  rewrite bool_decide_eq_true_2 by (rewrite fmap_app, elem_of_app; by right).
  rewrite list_find_app_r by by apply lookup_None.
  f_equal. clear Hown. simpl in Hinh.
  repeat (apply elem_of_cons in Hinh as [->|Hinh]; [done|]).
  by apply elem_of_nil in Hinh.
Qed.

Lemma valueForArgument_resolves variables v x :
  resolves variables v x → valueForArgument v variables = Ok x.
Proof.
  destruct 1 as [v bs x -> Hx|s z Hz| | | |]; simpl; try done.
  - by apply getVariableOrDie_bound.
  - destruct Hz as [->|[-> ->]]; [|done]. by rewrite parseInt10_pretty.
Qed.

(** The text that the code writes is the text of the standard. *)

Lemma append_nil_r s : s +:+ "" = s.
Proof.
  induction s as [|c s IH]; [done|].
  change (String c (s +:+ "") = String c s). by rewrite IH.
Qed.

Lemma concat_empty_cons x xs :
  String.concat "" (x :: xs) = x +:+ String.concat "" xs.
Proof. destruct xs; simpl; [|done]. by rewrite append_nil_r. Qed.

Lemma quote_char_escape c : Js.quote_char c = Json.escape c.
Proof. destruct c as [[] [] [] [] [] [] [] []]; reflexivity. Qed.

Lemma quote_string_text s : Js.quote s = Json.string_text s.
Proof.
  unfold Js.quote, Json.string_text. do 2 f_equal.
  induction s as [|c s IH]; [done|].
  cbn [Js.quote_body list_ascii_of_string map].
  by rewrite concat_empty_cons, IH, quote_char_escape.
Qed.

Lemma join_concat sep xs : Js.join sep xs = String.concat sep xs.
Proof.
  induction xs as [|x [|y xs] IH]; [done..|].
  cbn [Js.join String.concat] in *. by rewrite IH.
Qed.

Lemma property_text nt :
  ∀ v, Js.property nt v
       = if Json.omitted v then None else Some (Json.text nt v).
Proof.
  fix IH 1. intros [| |[]|[z|l|]|s|vs|ps|]; try reflexivity.
  - cbn [Js.property Js.number_text Json.omitted Json.text].
    unfold Js.max_safe. by destruct (decide _); [rewrite bool_decide_true|rewrite bool_decide_false].
  - cbn [Js.property Json.omitted Json.text]. by rewrite quote_string_text.
  - cbn [Js.property Json.omitted Json.text]. rewrite join_concat.
    do 4 f_equal. induction vs as [|v vs IHvs]; [done|].
    cbn [map]. f_equal; [|done]. rewrite (IH v). by destruct v.
  - cbn [Js.property Json.omitted Json.text]. rewrite join_concat.
    do 4 f_equal. induction ps as [|[k v] ps IHps]; [done|].
    cbn [omap list_omap flat_map snd fst]. rewrite (IH v), IHps.
    destruct (Json.omitted v); [done|]. simpl. by rewrite quote_string_text.
Qed.

Lemma stringify_array_text nt vs : Js.stringify_array nt vs = Json.array nt vs.
Proof.
  unfold Js.stringify_array, Json.array. rewrite join_concat. do 3 f_equal.
  apply map_ext. intros v. rewrite property_text.
  by destruct v.
Qed.

End materialiser.

(** C5.  [materializeKey] resolves the elements of the key list in the
    authored order (a variable reference to its binding, an integer
    literal to the integer it denotes, a float literal to its number, a
    string, boolean or enum literal to its value) and returns the JSON text
    of the array of the resolved values in that order, as the standard
    writes it; [materialize([1, "a", true], {})] is the text
    [[1,"a",true]]. *)
Theorem materializeKey_resolves nt values variables resolved :
  Forall2 (resolves variables) values resolved →
  materializeKey nt (ListValue values) variables
  = Ok (Json.array nt resolved) ∧
  materializeKey nt
    (ListValue [IntValue "1"; StringValue "a"; BooleanValue true]) (Some [])
  = Ok text_1_a_true.
Proof.
  intros H. split; [|done].
  unfold materializeKey. erewrite mapR_Forall2.
  - cbn [bindR]. by rewrite stringify_array_text.
  - eapply Forall2_impl; [exact H|]. intros v x Hv.
    by apply valueForArgument_resolves.
Qed.

Lemma materializeKey_resolves_witness :
  materializeKey Sample.nt
    (ListValue [Var {| name := "id" |}; EnumValue "RED"; IntValue "-7";
                StringValue "a\b"; FloatValue "1.5"])
    (Some [("id", Js.Str "42")])
  = Ok ("[" +:+ String Js.dquote ("42" +:+ String Js.dquote
          ("," +:+ String Js.dquote ("RED" +:+ String Js.dquote
          (",-7," +:+ String Js.dquote ("a\\b" +:+ String Js.dquote
          ",1.5]")))))).
Proof.
  apply (materializeKey_resolves Sample.nt
           [Var {| name := "id" |}; EnumValue "RED"; IntValue "-7";
            StringValue "a\b"; FloatValue "1.5"]
           (Some [("id", Js.Str "42")])
           [Js.Str "42"; Js.Str "RED"; Js.Num (Js.NInt (-7));
            Js.Str "a\b"; Js.Num (Js.NFloat "1.5")]).
  repeat econstructor.
Defined.

(** ** Documents in the heap: the utilities of the client library *)

Section documents.

Lemma operations_of_update f defs :
  count_of (operations_of (update_operation f defs))
  = count_of (operations_of defs).
Proof.
  unfold operations_of.
  induction defs as [|[op|frag|k] defs IH]; cbn [update_operation]; [done| | |].
  - rewrite !filter_cons_True by done. simpl. clear IH.
    match goal with |- context [bindR ?m _] => by destruct m end.
  - rewrite !filter_cons_False by (simpl; congruence). apply IH.
  - rewrite !filter_cons_True by done. done.
Qed.

Lemma checkDocument_count d :
  checkDocument d
  = (n ←? count_of (operations_of (definitions d));
     if bool_decide (n ≤ 1)%nat then Ok tt
     else Throw (InvariantError
            ("Ambiguous GraphQL document: contains "
               +:+ pretty n +:+ " operations"))).
Proof.
  unfold checkDocument. fold (operations_of (definitions d)).
  by destruct (operations_of _).
Qed.

Lemma checkDocument_update f d :
  checkDocument {| definitions := update_operation f (definitions d) |}
  = checkDocument d.
Proof. by rewrite !checkDocument_count; simpl; rewrite operations_of_update. Qed.

Lemma the_operation_update f d :
  the_operation {| definitions := update_operation f (definitions d) |}
  = f <$> the_operation d.
Proof.
  unfold the_operation. simpl.
  induction (definitions d) as [|[op|frag|k] defs IH]; simpl; done.
Qed.

Lemma getOperationDefinition_checked d :
  checkDocument d = Ok tt →
  getOperationDefinition d = Ok (the_operation d).
Proof. intros H. unfold getOperationDefinition. by rewrite H. Qed.

Lemma update_operation_id f defs :
  (∀ op, f op = op) → update_operation f defs = defs.
Proof.
  intros Hf. induction defs as [|[op|frag|k] defs IH]; simpl;
    by rewrite ?Hf, ?IH.
Qed.

Lemma update_operation_ext f g defs :
  (∀ op, f op = g op) → update_operation f defs = update_operation g defs.
Proof.
  intros Hf. induction defs as [|[op|frag|k] defs IH]; simpl;
    by rewrite ?Hf, ?IH.
Qed.

Lemma update_operation_first f defs op :
  head (omap is_operation defs) = Some op →
  update_operation f defs = update_operation (λ _, f op) defs.
Proof.
  induction defs as [|[op'|frag|k] defs IH]; simpl; intros H;
    [done| |by rewrite IH..].
  by simplify_eq.
Qed.

End documents.

(** ** The rewriter writes to the clone only *)

Section rewriter.

Lemma store_eta σ :
  {| heap := heap σ; documentCache := documentCache σ |} = σ.
Proof. by destruct σ. Qed.

Lemma filter_all {A} (P : A → Prop) `{∀ x, Decision (P x)} (l : list A) :
  Forall P l → filter P l = l.
Proof.
  induction 1 as [|x l Hx _ IH]; [done|].
  by rewrite filter_cons_True, IH.
Qed.

Lemma set_variableDefinitions_id op :
  set_variableDefinitions (op_variableDefinitions op) op = op.
Proof. by destruct op. Qed.

Lemma update_operation_const defs op :
  head (omap is_operation defs) = Some op →
  update_operation (λ _, op) defs = defs.
Proof.
  induction defs as [|[op'|frag|k] defs IH]; simpl; intros H;
    [done| |by rewrite IH..].
  by simplify_eq.
Qed.

Lemma prune_nothing names d :
  dropped names d = [] → prune names d = d.
Proof.
  intros Hd. unfold prune. rewrite Hd. destruct d as [defs]. simpl. f_equal.
  apply update_operation_id. intros [o n vd ds ss].
  unfold set_variableDefinitions. simpl. f_equal.
  destruct vd as [vs|]; simpl; [|done].
  f_equal. apply filter_all, Forall_forall. intros v _. apply not_elem_of_nil.
Qed.

Lemma size_list_to_set_lt_1 (l : list string) :
  (size (list_to_set l : gset string) < 1)%nat ↔ l = [].
Proof.
  split.
  - destruct l as [|x l]; [done|]. intros H.
    assert (size (list_to_set (x :: l) : gset string) = 0)%nat as H0 by lia.
    apply size_empty_iff in H0. set_solver.
  - intros ->. rewrite list_to_set_nil, size_empty. lia.
Qed.

Lemma dropped_gset names d :
  filter (λ n, n ∉ (list_to_set
                      (map name (getVariablesFromArguments
                                   (getAllArgumentsFromDocument d)))
                    : gset string)) names
  = dropped names d.
Proof.
  unfold dropped. apply list_filter_iff. intros n.
  by rewrite elem_of_list_to_set.
Qed.

Lemma removeVariableDefinitions_prune names r σ d :
  heap σ !! r = Some d →
  checkDocument d = Ok tt →
  is_Some (the_operation d) →
  removeVariableDefinitionsFromDocumentIfUnused names r σ
  = (Ok tt, {| heap := <[r := prune names d]> (heap σ);
               documentCache := documentCache σ |}).
Proof.
  intros Hr Hck [op Hop].
  unfold removeVariableDefinitionsFromDocumentIfUnused.
  case_bool_decide as Hn.
  { assert (names = []) as -> by (destruct names; simpl in *; [done|exfalso; lia]).
    rewrite prune_nothing by done.
    by rewrite list_insert_id, store_eta. }
  unfold bind at 1. unfold read. rewrite Hr.
  rewrite dropped_gset.
  case_bool_decide as Hs.
  { apply size_list_to_set_lt_1 in Hs.
    rewrite prune_nothing by done.
    by rewrite list_insert_id, store_eta. }
  unfold bind, lift. rewrite (getOperationDefinition_checked _ Hck), Hop.
  unfold prune. rewrite (update_operation_first _ _ _ Hop).
  destruct (op_variableDefinitions op) as [defs|] eqn:Hdefs; simpl.
  - unfold write. do 3 f_equal.
    rewrite (update_operation_first (set_variableDefinitions _) _ _ Hop).
    f_equal. apply update_operation_ext. intros _. do 2 f_equal.
    apply list_filter_iff. intros v. by rewrite elem_of_list_to_set.
  - unfold ret. rewrite <- Hdefs, set_variableDefinitions_id.
    rewrite update_operation_const by done.
    destruct d. simpl. by rewrite list_insert_id, store_eta.
Qed.

End rewriter.

Section extractor.

Lemma lookup_snoc {A} (l : list A) x : (l ++ [x]) !! length l = Some x.
Proof. by rewrite (list_lookup_middle l [] x). Qed.

Lemma insert_snoc {A} (l : list A) x y :
  <[length l := y]> (l ++ [x]) = l ++ [y].
Proof. by rewrite insert_app_r_alt, Nat.sub_diag by lia. Qed.

Lemma strip_first i d op ds :
  the_operation d = Some op → op_directives op = Some ds →
  {| definitions :=
       update_operation (set_directives (Some (delete i ds))) (definitions d) |}
  = strip i d.
Proof.
  intros Hop Hds. unfold strip. f_equal.
  rewrite (update_operation_first (set_directives _) _ _ Hop).
  rewrite (update_operation_first (λ op, set_directives _ op) _ _ Hop).
  by rewrite Hds.
Qed.

Lemma removeDirective_rewritten r i node σ d op ds arguments :
  heap σ !! r = Some d →
  checkDocument d = Ok tt →
  the_operation d = Some op →
  op_directives op = Some ds →
  dir_arguments node = Some arguments →
  removeDirectiveFromDocument r (Some (i, node)) σ
  = (Ok (length (heap σ)),
     {| heap := heap σ ++ [rewritten i node d];
        documentCache := documentCache σ |}).
Proof.
  intros Hr Hck Hop Hds Hargs.
  assert (r < length (heap σ))%nat as Hlt by by eapply lookup_lt_Some.
  unfold removeDirectiveFromDocument, cloneDeep.
  unfold bind at 1. unfold bind at 1. unfold read at 1. rewrite Hr.
  unfold bind at 1. unfold read at 1. cbn [heap documentCache].
  rewrite lookup_app_l, Hr by done.
  unfold bind at 1. unfold lift at 1.
  rewrite (getOperationDefinition_checked _ Hck), Hop.
  unfold bind at 1. unfold read at 1. cbn [heap documentCache].
  rewrite lookup_snoc.
  unfold bind at 1. unfold lift at 1.
  rewrite (getOperationDefinition_checked _ Hck), Hop, Hds.
  unfold bind at 1. unfold write at 1. cbn [heap documentCache].
  rewrite insert_snoc, (strip_first i d op ds) by done.
  rewrite Hargs. unfold bind at 1.
  erewrite removeVariableDefinitions_prune; cycle 1.
  - cbn [heap]. apply lookup_snoc.
  - unfold strip. by rewrite checkDocument_update.
  - unfold strip. rewrite the_operation_update, Hop. by eexists.
  - unfold ret. cbn [heap documentCache]. rewrite insert_snoc.
    unfold rewritten. by rewrite Hargs.
Qed.

Lemma extract_hit r σ hit :
  documentCache σ !! r = Some hit →
  extractDirectiveArguments r σ = (Ok hit, σ).
Proof.
  intros H. unfold extractDirectiveArguments, bind, cache_get. by rewrite H.
Qed.

Lemma annotation_arguments d i node :
  parsed d → annotation d = Some (i, node) →
  ∃ op ds arguments,
    the_operation d = Some op ∧ op_directives op = Some ds ∧
    list_find (λ n, dir_name n = DIRECTIVE_NAME) ds = Some (i, node) ∧
    dir_arguments node = Some arguments.
Proof.
  intros (_ & op & ds & Hop & Hds & Hall) Ha.
  unfold annotation in Ha. rewrite Hop in Ha. simpl in Ha.
  rewrite Hds in Ha. simpl in Ha.
  pose proof Ha as Hfind.
  apply list_find_Some in Ha as (Hi & _ & _).
  apply list_elem_of_lookup_2 in Hi.
  rewrite Forall_forall in Hall. destruct (Hall _ Hi) as [arguments Hargs].
  by exists op, ds, arguments.
Qed.

Lemma extract_miss r σ d :
  documentCache σ !! r = None →
  heap σ !! r = Some d →
  parsed d →
  extractDirectiveArguments r σ
  = match annotation d with
    | None => (Ok {| ret_doc := r; ret_args := None |}, σ)
    | Some (i, node) =>
        match key_shape (default [] (dir_arguments node)) with
        | NoKeyArgument =>
            (Throw (Error "The @serialize directive requires a 'key' argument"),
             σ)
        | KeyNotList _ =>
            (Throw (Error "The @serialize directive's 'key' argument must be of type List, got Argument"),
             σ)
        | KeyList values =>
            let result := {| ret_doc := length (heap σ);
                             ret_args := Some (ListValue values) |} in
            (Ok result,
             {| heap := heap σ ++ [rewritten i node d];
                documentCache := <[r := result]> (documentCache σ) |})
        end
    end.
Proof.
  intros Hmiss Hr Hp.
  pose proof Hp as (Hck & op & ds & Hop & Hds & Hall).
  unfold extractDirectiveArguments, cache_get.
  unfold bind at 1. rewrite Hmiss.
  unfold bind at 1. unfold read at 1. rewrite Hr.
  unfold bind at 1. unfold lift at 1. rewrite Hck.
  unfold bind at 1. unfold lift at 1.
  rewrite (getOperationDefinition_checked _ Hck), Hop.
  unfold bind at 1. unfold lift at 1. unfold extractDirective. rewrite Hds.
  assert (annotation d
          = list_find (λ n, dir_name n = DIRECTIVE_NAME) ds) as Ha.
  { unfold annotation. rewrite Hop. simpl. by rewrite Hds. }
  rewrite Ha.
  destruct (list_find _ ds) as [[i node]|]; [|done].
  destruct (annotation_arguments d i node Hp Ha)
    as (op' & ds' & arguments & Hop' & Hds' & _ & Hargs).
  rewrite Hargs. cbn [default from_option id]. unfold key_shape.
  destruct (list_find _ arguments) as [[j argument]|]; [|done].
  destruct (arg_value argument) eqn:Hv; try done.
  rewrite bool_decide_eq_false_2 by (intros H; by apply H).
  unfold bind at 1.
  erewrite removeDirective_rewritten by done.
  done.
Qed.

End extractor.

(** ** Errors of the pipeline *)

Section errors.

Lemma valueForArgument_offending variables v :
  inherited variables v = false →
  offending variables v = true →
  valueForArgument v variables = Throw (Error (offence v)).
Proof.
  unfold offending, inherited. destruct v as [x| | | | | | | |]; simpl; try done.
  destruct variables as [bs|]; [|done]. simpl.
  intros Hinh Hown.
  apply negb_true_iff in Hown. rewrite Hown in Hinh. simpl in Hinh.
  apply bool_decide_eq_false in Hinh, Hown.
  by apply getVariableOrDie_unbound.
Qed.

Lemma valueForArgument_fine variables v :
  offending variables v = false →
  ∃ x, valueForArgument v variables = Ok x.
Proof.
  unfold offending. destruct v; simpl; try done; eauto.
  unfold getVariableOrDie, js_in, js_properties.
  destruct variables as [bs|]; simpl; [|done].
  intros Hown%negb_false_iff%bool_decide_eq_true.
  rewrite bool_decide_eq_true_2; [eauto|].
  rewrite fmap_app, elem_of_app. by left.
Qed.

Lemma mapR_values variables values :
  Forall (λ v, inherited variables v = false) values →
  match list_find (λ v, offending variables v = true) values with
  | Some (_, v) =>
      mapR (λ val, valueForArgument val variables) values
      = Throw (Error (offence v))
  | None => ∃ xs, mapR (λ val, valueForArgument val variables) values = Ok xs
  end.
Proof.
  induction 1 as [|v values Hinh _ IH]; simpl; [by eexists|].
  case_decide as Hv.
  - simpl. by rewrite valueForArgument_offending.
  - apply not_true_is_false in Hv.
    destruct (valueForArgument_fine _ _ Hv) as [x ->]. simpl.
    destruct (list_find _ values) as [[i w]|]; simpl.
    + by rewrite IH.
    + destruct IH as [xs ->]. by eexists.
Qed.

Lemma fatal_message_offence arguments variables :
  fatal_message arguments variables
  = match key_shape arguments with
    | NoKeyArgument =>
        Some "The @serialize directive requires a 'key' argument"
    | KeyNotList _ =>
        Some "The @serialize directive's 'key' argument must be of type List, got Argument"
    | KeyList values =>
        (λ p, offence p.2)
          <$> list_find (λ v, offending variables v = true) values
    end.
Proof.
  unfold fatal_message. destruct (key_shape arguments); try done.
  destruct (list_find _ values) as [[i v]|]; [|done]. by destruct v.
Qed.

(** What [extractKey] answers, up to the address of the rewritten
    document. *)
Lemma extractKey_key nt operation σ d :
  cache_ok σ →
  heap σ !! query operation = Some d →
  parsed d →
  truthy (serializationKey (getContext operation)) = false →
  match (extractKey nt operation σ).1 with
  | Ok k => Ok (k_key k)
  | Throw e => Throw e
  end
  = match annotation d with
    | None => Ok None
    | Some (i, node) =>
        match key_shape (default [] (dir_arguments node)) with
        | NoKeyArgument =>
            Throw (Error "The @serialize directive requires a 'key' argument")
        | KeyNotList _ =>
            Throw (Error "The @serialize directive's 'key' argument must be of type List, got Argument")
        | KeyList values =>
            key ←? materializeKey nt (ListValue values) (variables operation);
            Ok (Some key)
        end
    end.
Proof.
  intros Hok Hr Hp Hover. unfold extractKey. rewrite Hover.
  unfold bind at 1.
  destruct (documentCache σ !! query operation) as [hit|] eqn:Hc.
  - rewrite (extract_hit _ _ _ Hc).
    destruct (Hok _ _ Hc)
      as (d' & i & node & arguments & values & Hr' & _ & Ha & Hargs & Hk & Hv & _).
    assert (d' = d) as -> by congruence.
    rewrite Ha, Hargs, Hv. cbn [default from_option id]. rewrite Hk.
    unfold bind, lift.
    by destruct (materializeKey _ _ _).
  - rewrite (extract_miss _ _ _ Hc Hr Hp).
    destruct (annotation d) as [[i node]|]; [|done].
    destruct (key_shape _); try done.
    cbn [ret_args]. unfold bind, lift.
    by destruct (materializeKey _ _ _).
Qed.

End errors.

(** C6, as amended.  For a document that passes the document check, with
    its directive and argument arrays, in a store whose cache the extractor
    filled, for an operation without override key, and when no variable of
    the key list without a binding of its own bears the name of an
    inherited property: the pipeline of extraction and materialisation
    raises an error exactly when the serialize annotation has no [key]
    argument, or the value of that argument is no list literal, or an
    element of the key list is of an unsupported kind (list, object, null)
    or a variable without binding.  The error names the directive in the
    first two cases, and the kind or the variable of the first offending
    element otherwise. *)
Theorem pipeline_fatal nt operation σ d :
  cache_ok σ →
  heap σ !! query operation = Some d →
  parsed d →
  truthy (serializationKey (getContext operation)) = false →
  Forall (λ v, inherited (variables operation) v = false) (key_list d) →
  (raises (extractKey nt operation σ).1 ↔ fatal d (variables operation)) ∧
  ∀ i node arguments,
    annotation d = Some (i, node) → dir_arguments node = Some arguments →
    match fatal_message arguments (variables operation) with
    | Some message => (extractKey nt operation σ).1 = Throw (Error message)
    | None => ¬ raises (extractKey nt operation σ).1
    end.
Proof.
  intros Hok Hr Hp Hover Hinh.
  pose proof (extractKey_key nt operation σ d Hok Hr Hp Hover) as Hkey.
  unfold key_list in Hinh.
  destruct (annotation d) as [[i node]|] eqn:Ha.
  - destruct (annotation_arguments d i node Hp Ha)
      as (op & ds & arguments & _ & _ & _ & Hargs).
    rewrite Hargs in Hkey, Hinh. cbn [default from_option id] in Hkey, Hinh.
    assert (match fatal_message arguments (variables operation) with
            | Some message =>
                (extractKey nt operation σ).1 = Throw (Error message)
            | None => ¬ raises (extractKey nt operation σ).1
            end ∧
            (raises (extractKey nt operation σ).1 ↔
             match key_shape arguments with
             | KeyList values =>
                 Exists (λ v, offending (variables operation) v = true) values
             | _ => True
             end)) as [Hmsg Hiff].
    { rewrite fatal_message_offence.
      destruct (key_shape arguments) as [|a|values].
      - destruct (extractKey nt operation σ).1; by simplify_eq.
      - destruct (extractKey nt operation σ).1; by simplify_eq.
      - unfold materializeKey in Hkey.
        pose proof (mapR_values (variables operation) values Hinh) as Hm.
        destruct (list_find _ values) as [[j v]|] eqn:Hf.
        + rewrite Hm in Hkey. simpl in Hkey.
          destruct (extractKey nt operation σ).1; simplify_eq. split; [done|].
          split; [|done]. intros _.
          apply list_find_Some in Hf as (Hj & Hv & _).
          apply Exists_exists. exists v. split; [|done].
          by eapply list_elem_of_lookup_2.
        + destruct Hm as [xs Hm]. rewrite Hm in Hkey. simpl in Hkey.
          destruct (extractKey nt operation σ).1; simplify_eq. simpl.
          split; [tauto|]. split; [done|].
          apply list_find_None in Hf. intros Hex.
          apply Exists_exists in Hex as (v & Hv & Hoff).
          rewrite Forall_forall in Hf. by apply (Hf v). }
    split.
    + rewrite Hiff. unfold fatal. split.
      * intros H. exists i, node, arguments.
        split; [done|]. split; [done|].
        by destruct (key_shape arguments).
      * intros (i' & node' & arguments' & Ha' & Hargs' & H).
        simplify_eq. by destruct (key_shape _).
    + intros i' node' arguments' Ha' Hargs'. by simplify_eq.
  - split; [|done].
    destruct (extractKey nt operation σ).1; simplify_eq. simpl.
    split; [done|]. intros (i & node & arguments & ? & _). congruence.
Qed.

Lemma cache_ok_empty h : cache_ok {| heap := h; documentCache := ∅ |}.
Proof. intros r hit H. simpl in H. by rewrite lookup_empty in H. Qed.

Lemma parsed_doc_used : parsed Sample.doc_used.
Proof.
  split; [reflexivity|]. eexists _, _.
  split; [reflexivity|]. split; [reflexivity|].
  repeat constructor; by eexists.
Qed.

Lemma pipeline_fatal_witness :
  raises (extractKey Sample.nt
            {| query := 1; variables := Some [("other", Js.Null)];
               operationName := "M"; getContext := Sample.plain |}
            Sample.documents).1
  ↔ fatal Sample.doc_used (Some [("other", Js.Null)]).
Proof.
  apply (pipeline_fatal Sample.nt
           {| query := 1; variables := Some [("other", Js.Null)];
              operationName := "M"; getContext := Sample.plain |}
           Sample.documents Sample.doc_used).
  - apply cache_ok_empty.
  - reflexivity.
  - apply parsed_doc_used.
  - reflexivity.
  - by repeat constructor.
Defined.

(** C6, as stated, fails.  The annotation of [Sample.doc_no_key] has no
    [key] argument, and for an operation with the override key [k1] no
    error is raised: the key is the override.  The document
    [Sample.doc_two] holds two operations without annotation, and the
    document check raises its own error. *)
Lemma pipeline_skipped_or_checked :
  fatal Sample.doc_no_key (Some [("id", Js.Str "1")]) ∧
  (extractKey Sample.nt (Sample.operation 0 "id" "1" (Sample.override "k1"))
     Sample.faulty).1
  = Ok {| k_operation := Sample.operation 0 "id" "1" (Sample.override "k1");
          k_key := Some "k1" |} ∧
  (extractKey Sample.nt (Sample.operation 0 "id" "1" Sample.plain)
     Sample.faulty).1
  = Throw (Error "The @serialize directive requires a 'key' argument") ∧
  annotation Sample.doc_two = None ∧
  ¬ fatal Sample.doc_two (Some [("id", Js.Str "1")]) ∧
  (extractKey Sample.nt (Sample.operation 1 "id" "1" Sample.plain)
     Sample.faulty).1
  = Throw (InvariantError "Ambiguous GraphQL document: contains 2 operations").
Proof.
  split_and!; try reflexivity.
  - exists 0%nat, {| dir_name := "serialize"; dir_arguments := Some [] |}, [].
    by repeat split.
  - intros (i & node & arguments & Ha & _). discriminate Ha.
Qed.

(** ** Documents without annotation, and the cache *)

Lemma no_annotation_miss σ r d :
  cache_ok σ → heap σ !! r = Some d → annotation d = None →
  documentCache σ !! r = None.
Proof.
  intros Hok Hr Ha. destruct (documentCache σ !! r) as [hit|] eqn:Hc; [|done].
  destruct (Hok _ _ Hc) as (d' & i & node & ? & ? & Hr' & _ & Ha' & _).
  congruence.
Qed.

Lemma extract_no_annotation σ r d :
  cache_ok σ → heap σ !! r = Some d → parsed d → annotation d = None →
  extractDirectiveArguments r σ
  = (Ok {| ret_doc := r; ret_args := None |}, σ).
Proof.
  intros Hok Hr Hp Ha.
  rewrite (extract_miss r σ d) by eauto using no_annotation_miss.
  by rewrite Ha.
Qed.

Lemma with_store_id l : with_store (store l) l = l.
Proof. by destruct l. Qed.








(** ** The rewritten document *)

(** The extractor leaves every document of the heap as it was: it writes
    to the clone only. *)
Lemma extract_keeps_documents r σ d r' d' :
  heap σ !! r = Some d → parsed d →
  heap σ !! r' = Some d' →
  heap (extractDirectiveArguments r σ).2 !! r' = Some d'.
Proof.
  intros Hr Hp Hr'.
  destruct (documentCache σ !! r) as [hit|] eqn:Hc.
  - by rewrite (extract_hit _ _ _ Hc).
  - rewrite (extract_miss _ _ _ Hc Hr Hp).
    destruct (annotation d) as [[i node]|]; [|done].
    destruct (key_shape _); [done..|]. simpl.
    rewrite lookup_app_l; [done|]. by eapply lookup_lt_Some.
Qed.

(** The extractor keeps the cache within the results it computes. *)
Lemma extract_cache_ok r σ d :
  cache_ok σ → heap σ !! r = Some d → parsed d →
  cache_ok (extractDirectiveArguments r σ).2.
Proof.
  intros Hok Hr Hp.
  destruct (documentCache σ !! r) as [hit|] eqn:Hc.
  { by rewrite (extract_hit _ _ _ Hc). }
  rewrite (extract_miss _ _ _ Hc Hr Hp).
  destruct (annotation d) as [[i node]|] eqn:Ha; [|done].
  destruct (annotation_arguments d i node Hp Ha)
    as (op & ds & arguments & _ & _ & _ & Hargs).
  rewrite Hargs. cbn [default from_option id].
  destruct (key_shape arguments) as [| |values] eqn:Hk; [done..|].
  intros r0 hit Hhit. simpl in Hhit.
  destruct (decide (r0 = r)) as [->|Hne].
  - rewrite lookup_insert_eq in Hhit. simplify_eq.
    exists d, i, node, arguments, values. simpl.
    rewrite lookup_app_l by by eapply lookup_lt_Some.
    rewrite length_app. simpl. split_and!; try done. lia.
  - rewrite lookup_insert_ne in Hhit by done.
    destruct (Hok _ _ Hhit)
      as (d0 & i0 & n0 & a0 & v0 & Hr0 & ? & ? & ? & ? & ? & ?).
    exists d0, i0, n0, a0, v0. simpl.
    rewrite lookup_app_l by by eapply lookup_lt_Some.
    rewrite length_app. simpl. split_and!; try done. lia.
Qed.

(** The operation of the rewritten document: the directive at the position
    of the annotation is gone, and so are the declarations of the variables
    of the annotation that the walker finds nowhere in the stripped
    document; nothing else changes. *)
Lemma rewritten_operation i node d op :
  the_operation d = Some op →
  the_operation (rewritten i node d)
  = Some (set_variableDefinitions
            (filter (λ v, name (variable v)
                          ∉ dropped (map name (getVariablesFromArguments
                                                 (default [] (dir_arguments node))))
                                    (strip i d))
               <$> op_variableDefinitions op)
            (set_directives (delete i <$> op_directives op) op)).
Proof.
  intros Hop. unfold rewritten, prune.
  rewrite (the_operation_update _ (strip i d)). unfold strip.
  rewrite (the_operation_update _ d), Hop. done.
Qed.

Lemma rewritten_declared i node d x :
  x ∈ declared (rewritten i node d) ↔
  x ∈ declared d ∧
  x ∉ dropped (map name (getVariablesFromArguments
                           (default [] (dir_arguments node))))
              (strip i d).
Proof.
  unfold declared at 1 2.
  destruct (the_operation d) as [op|] eqn:Hop.
  - rewrite (rewritten_operation i node d op Hop). simpl.
    destruct (op_variableDefinitions op) as [vs|]; simpl.
    + rewrite !list_elem_of_fmap. split.
      * intros (v & -> & [Hv Hin]%list_elem_of_filter). split; [|done].
        by exists v.
      * intros [(v & -> & Hin) Hv]. exists v. split; [done|].
        by apply list_elem_of_filter.
    + split; [by intros ?%elem_of_nil|by intros [?%elem_of_nil _]].
  - unfold rewritten, prune.
    rewrite (the_operation_update _ (strip i d)). unfold strip.
    rewrite (the_operation_update _ d), Hop. simpl.
    split; [by intros ?%elem_of_nil|by intros [?%elem_of_nil _]].
Qed.

(** The annotation [@serialize(key: [$id])] with [$id] also used by a
    field: the key is [["42"]], the rewritten document has lost the
    annotation and still declares [$id]. *)
Example rewrite_keeps_used_variable :
  (extractKey Sample.nt (Sample.operation 1 "id" "42" Sample.plain)
     Sample.documents).1
  = Ok {| k_operation := Sample.operation 4 "id" "42" Sample.plain;
          k_key := Some (Js.stringify_array Sample.nt [Js.Str "42"]) |} ∧
  heap (extractKey Sample.nt (Sample.operation 1 "id" "42" Sample.plain)
          Sample.documents).2 !! 4%nat
  = Some Sample.doc_plain.
Proof. split; reflexivity. Qed.

(** The annotation [@serialize(key: [$token])] with [$token] used nowhere
    else: the key is [["abc"]], the rewritten document declares nothing. *)
Example rewrite_drops_unused_variable :
  (extractKey Sample.nt (Sample.operation 2 "token" "abc" Sample.plain)
     Sample.documents).1
  = Ok {| k_operation := Sample.operation 4 "token" "abc" Sample.plain;
          k_key := Some (Js.stringify_array Sample.nt [Js.Str "abc"]) |} ∧
  declared <$> heap (extractKey Sample.nt
                       (Sample.operation 2 "token" "abc" Sample.plain)
                       Sample.documents).2 !! 4%nat
  = Some [].
Proof. split; reflexivity. Qed.

(** C7: the code at the failing input.  In [Sample.doc_inline] the variable
    [$id] is referenced by the annotation and by a field inside an inline
    fragment.  The rewritten document still holds that field with its
    argument [id: $id], and the declaration of [$id] is gone; the input
    document is as it was. *)
Lemma declaration_in_use_is_removed :
  (extractDirectiveArguments 3 Sample.documents).1
  = Ok {| ret_doc := 4; ret_args := Some (ListValue [Var {| name := "id" |}]) |} ∧
  heap (extractDirectiveArguments 3 Sample.documents).2 !! 4%nat
  = Some (Sample.mutation [] []
            [InlineFragment (Some "Mutation") (Some [])
               (Some [Field "update" (Some [Sample.argument "id" "id"])
                        (Some []) None])]) ∧
  heap (extractDirectiveArguments 3 Sample.documents).2 !! 3%nat
  = Some Sample.doc_inline ∧
  declared Sample.doc_inline = ["id"].
Proof. repeat split. Qed.

(** ** Dictionaries *)

Section dictionaries.
Context {V : Type}.
Implicit Types (obj : list (string * V)) (k key : string) (v : V).

Lemma get_cons k key v obj :
  Dict.get key ((k, v) :: obj)
  = if decide (k = key) then Some v else Dict.get key obj.
Proof.
  unfold Dict.get. simpl. case_decide; [done|].
  by destruct (list_find _ obj) as [[i [k' w]]|].
Qed.

Lemma get_None key obj : Dict.get key obj = None ↔ key ∉ obj.*1.
Proof.
  induction obj as [|[k v] obj IH]; simpl.
  - split; [intros _; apply not_elem_of_nil|done].
  - rewrite get_cons, not_elem_of_cons. case_decide as Hk.
    + split; [done|]. intros [? _]. congruence.
    + rewrite IH. split; [by split|tauto].
Qed.

Lemma get_elem_of key v obj : Dict.get key obj = Some v → (key, v) ∈ obj.
Proof.
  induction obj as [|[k w] obj IH]; [done|].
  rewrite get_cons. case_decide.
  - intros; simplify_eq. left.
  - intros. right. by apply IH.
Qed.

Lemma get_NoDup key v obj :
  NoDup obj.*1 → (key, v) ∈ obj → Dict.get key obj = Some v.
Proof.
  induction obj as [|[k w] obj IH]; [by intros _ ?%elem_of_nil|].
  simpl. intros [Hk Hnd]%NoDup_cons [Heq|Hin]%elem_of_cons; rewrite get_cons.
  - simplify_eq. by rewrite decide_True.
  - rewrite decide_False; [by apply IH|]. intros ->. apply Hk.
    apply list_elem_of_fmap. by exists (key, v).
Qed.

Lemma get_define_eq key v obj : Dict.get key (Dict.define key v obj) = Some v.
Proof.
  induction obj as [|[k w] obj IH]; simpl.
  - by rewrite get_cons, decide_True.
  - case_bool_decide; rewrite get_cons.
    + by rewrite decide_True.
    + by rewrite decide_False.
Qed.

Lemma get_define_ne key k v obj :
  k ≠ key → Dict.get k (Dict.define key v obj) = Dict.get k obj.
Proof.
  intros Hne. induction obj as [|[k' w] obj IH]; simpl.
  - rewrite get_cons, decide_False by done. done.
  - case_bool_decide; rewrite !get_cons.
    + by subst; rewrite !decide_False by done.
    + by rewrite IH.
Qed.

(** Writing an own property replaces it in place or creates it last. *)
Lemma define_shape key v obj :
  (∃ l1 w l2, obj = l1 ++ (key, w) :: l2 ∧
              Dict.define key v obj = l1 ++ (key, v) :: l2) ∨
  ((key ∉ obj.*1) ∧ Dict.define key v obj = obj ++ [(key, v)]).
Proof.
  induction obj as [|[k w] obj IH]; simpl.
  - right. split; [apply not_elem_of_nil|done].
  - case_bool_decide as Hk.
    + subst. left. by exists [], w, obj.
    + destruct IH as [(l1 & w' & l2 & -> & ->)|[Hnot ->]].
      * left. by exists ((k, w) :: l1), w', l2.
      * right. split; [|done]. rewrite not_elem_of_cons. naive_solver.
Qed.

(** An assignment under another key than [__proto__] writes the own
    property. *)
Lemma set_define key v obj :
  key ≠ Js.PROTO → Dict.set key v obj = Dict.define key v obj.
Proof.
  intros Hkey. unfold Dict.set. rewrite bool_decide_eq_false_2; [done|tauto].
Qed.

Lemma get_set_eq key v obj :
  key ≠ Js.PROTO → Dict.get key (Dict.set key v obj) = Some v.
Proof. intros Hkey. rewrite set_define by done. apply get_define_eq. Qed.

Lemma get_set_ne key k v obj :
  k ≠ key → Dict.get k (Dict.set key v obj) = Dict.get k obj.
Proof.
  intros Hne. unfold Dict.set. case_bool_decide; [done|].
  by apply get_define_ne.
Qed.

(** An assignment replaces the property in place, or creates it last, or,
    under [__proto__], leaves the properties as they are. *)
Lemma set_shape key v obj :
  (∃ l1 w l2, obj = l1 ++ (key, w) :: l2 ∧
              Dict.set key v obj = l1 ++ (key, v) :: l2) ∨
  ((key ∉ obj.*1) ∧ Dict.set key v obj = obj ++ [(key, v)]) ∨
  (key = Js.PROTO ∧ (key ∉ obj.*1) ∧ Dict.set key v obj = obj).
Proof.
  unfold Dict.set. case_bool_decide as Hp.
  - right. right. by destruct Hp.
  - destruct (define_shape key v obj) as [H|H]; [by left|by right; left].
Qed.

Lemma set_keys_NoDup key v obj :
  NoDup obj.*1 → NoDup (Dict.set key v obj).*1.
Proof.
  intros Hnd. destruct (set_shape key v obj)
    as [(l1 & w & l2 & -> & ->)|[[Hnot ->]|(_ & _ & ->)]]; [| |done].
  - by rewrite fmap_app, fmap_cons in *.
  - rewrite fmap_app. simpl. apply NoDup_app. split_and!; [done| |].
    + intros x Hx ?%list_elem_of_singleton. by subst.
    + apply NoDup_singleton.
Qed.

Lemma del_keys key obj :
  (Dict.del key obj).*1 = filter (λ k, k ≠ key) (obj.*1).
Proof.
  unfold Dict.del. induction obj as [|[k w] obj IH]; [done|].
  rewrite fmap_cons, !filter_cons. cbn [fst].
  case_decide; [rewrite fmap_cons|]; by rewrite IH.
Qed.

Lemma del_keys_NoDup key obj : NoDup obj.*1 → NoDup (Dict.del key obj).*1.
Proof. rewrite del_keys. apply NoDup_filter. Qed.

Lemma get_del_eq key obj : Dict.get key (Dict.del key obj) = None.
Proof.
  apply get_None. rewrite del_keys, list_elem_of_filter. by intros [? _].
Qed.



Lemma del_subseteq key obj : Dict.del key obj ⊆ obj.
Proof. intros p. unfold Dict.del. rewrite list_elem_of_filter. tauto. Qed.

End dictionaries.

Section enumeration.
Context {V : Type}.
Implicit Types (obj : list (string * V)) (k key : string) (v : V).

Lemma array_index_Some k n : Dict.array_index k = Some n → pretty n = k.
Proof.
  unfold Dict.array_index. destruct k as [|c k]; [done|].
  destruct (Dict.digits 0 (String c k)) as [m|]; simpl; [|done].
  case_bool_decide as H; [|done]. intros; simplify_eq. by destruct H.
Qed.

Lemma indices_filter (ks : list string) :
  pretty <$> omap Dict.array_index ks
  = filter (λ k, is_Some (Dict.array_index k)) ks.
Proof.
  induction ks as [|k ks IH]; [done|].
  rewrite filter_cons. cbn [omap list_omap].
  destruct (Dict.array_index k) as [n|] eqn:Hk.
  - rewrite decide_True by by eexists.
    by rewrite fmap_cons, (array_index_Some _ _ Hk), IH.
  - rewrite decide_False by by intros [? ?]. done.
Qed.

(** [Object.keys] lists every key once. *)
Lemma keys_Permutation obj : Dict.keys obj ≡ₚ obj.*1.
Proof.
  unfold Dict.keys. rewrite merge_sort_Permutation, indices_filter.
  rewrite (list_filter_iff (λ k, Dict.array_index k = None)
             (λ k, ¬ is_Some (Dict.array_index k))).
  - apply filter_app_complement.
  - intros k. by rewrite eq_None_not_Some.
Qed.

Lemma entries_elem_of obj p : p ∈ Dict.entries obj → p ∈ obj.
Proof.
  unfold Dict.entries. rewrite list_elem_of_omap.
  intros (k & _ & Hk). destruct (Dict.get k obj) as [v|] eqn:Hv; [|done].
  simpl in Hk. simplify_eq. by apply get_elem_of.
Qed.

Lemma read_back obj (sub : list (string * V)) :
  NoDup (obj.*1) → sub ⊆ obj →
  omap (λ k, (λ v, (k, v)) <$> Dict.get k obj) (sub.*1) = sub.
Proof.
  intros Hnd. induction sub as [|[k v] sub IH]; intros Hsub; [done|].
  rewrite fmap_cons. cbn [omap list_omap fst].
  rewrite (get_NoDup k v obj) by (try done; apply Hsub; left).
  cbn [fmap option_fmap option_map].
  fold (omap (λ k, (λ v, (k, v)) <$> Dict.get k obj) (sub.*1)).
  rewrite IH; [done|]. intros p Hp. apply Hsub. by right.
Qed.

(** With one property per key, the enumeration of a dictionary lists
    every property once. *)
Lemma entries_Permutation obj : NoDup (obj.*1) → Dict.entries obj ≡ₚ obj.
Proof.
  intros Hnd. unfold Dict.entries. rewrite keys_Permutation.
  by rewrite read_back.
Qed.

End enumeration.

(** ** The gate *)

Section forwards.

Lemma forwards_app o evs1 evs2 :
  forwards o (evs1 ++ evs2) = (forwards o evs1 + forwards o evs2)%nat.
Proof. unfold forwards. by rewrite filter_app, length_app. Qed.

Lemma forwards_mutations o (es : list (string * StoredEntry)) :
  forwards o (map (λ p, Mutate p.2) es) = 0%nat.
Proof. by induction es. Qed.

Lemma forwards_flush o (q : list (string * OperationQueueEntry)) :
  forwards o (flush q)
  = length (filter (λ p, entry_observer p.2 = o) (Dict.entries q)).
Proof.
  unfold flush, forwards.
  induction (Dict.entries q) as [|[k e] es IH]; [done|].
  cbn [map]. rewrite !filter_cons. cbn [forwarded_to snd].
  case_bool_decide as Ho.
  - rewrite decide_True by done. rewrite decide_True by done.
    simpl. by rewrite IH.
  - rewrite decide_False by done. rewrite decide_False by done. done.
Qed.

Lemma filter_none {A} (P : A → Prop) `{∀ x, Decision (P x)} (l : list A) :
  (∀ x, x ∈ l → ¬ P x) → filter P l = [].
Proof.
  induction l as [|x l IH]; intros Hl; [done|].
  rewrite filter_cons_False by (apply Hl; left).
  apply IH. intros y Hy. apply Hl. by right.
Qed.

Lemma forwards_flush_absent o q :
  o ∉ map (λ p, entry_observer p.2) q → forwards o (flush q) = 0%nat.
Proof.
  intros Hnot. rewrite forwards_flush, filter_none; [done|].
  intros p Hp Ho. apply Hnot. apply (list_elem_of_fmap_2' _ _ p); [|done].
  by apply entries_elem_of.
Qed.

Lemma count_once {A B} `{EqDecision B} (f : A → B) (l : list A) x :
  NoDup (f <$> l) → x ∈ l →
  length (filter (λ y, f y = f x) l) = 1%nat.
Proof.
  induction l as [|y l IH]; [by intros _ ?%elem_of_nil|].
  rewrite fmap_cons. intros [Hy Hnd]%NoDup_cons [->|Hin]%elem_of_cons.
  - rewrite filter_cons_True by done. simpl. f_equal.
    rewrite filter_none; [done|]. intros z Hz Hfz. apply Hy.
    rewrite <- Hfz. by apply list_elem_of_fmap_2.
  - rewrite filter_cons_False; [by apply IH|].
    intros Hfy. apply Hy. rewrite Hfy. by apply list_elem_of_fmap_2.
Qed.

(** Flushing a queue with one entry per key and one observer per entry
    forwards each queued entry once. *)
Lemma forwards_flush_once q k e :
  NoDup (q.*1) → NoDup (map (λ p, entry_observer p.2) q) →
  Dict.get k q = Some e →
  forwards (entry_observer e) (flush q) = 1%nat.
Proof.
  intros Hk Ho He. rewrite forwards_flush.
  rewrite (entries_Permutation q Hk).
  apply (count_once (λ p, entry_observer p.2) q (k, e)); [done|].
  by apply get_elem_of.
Qed.

End forwards.

Section steps.
Variable nt : Js.NumberText.
Variable hasStorage : bool.

(** What each operation leaves alone. *)

Lemma rehydrate_effect l :
  opQueue (rehydrateQueue hasStorage l) = opQueue l ∧
  observers (rehydrateQueue hasStorage l) = observers l ∧
  isOpen (rehydrateQueue hasStorage l) = isOpen l ∧
  local_ops (rehydrateQueue hasStorage l) = local_ops l ∧
  ∃ es : Snapshot, trace (rehydrateQueue hasStorage l)
                   = trace l ++ map (λ p, Mutate p.2) es.
Proof.
  unfold rehydrateQueue. destruct hasStorage.
  - destruct (local_ops l) as [s|] eqn:Hs; simpl.
    + rewrite Hs. split_and!; try done. by eexists.
    + rewrite Hs. split_and!; try done. exists []. by rewrite app_nil_r.
  - split_and!; try done. exists []. by rewrite app_nil_r.
Qed.

Lemma persist_effect l :
  opQueue (persist hasStorage l) = opQueue l ∧
  observers (persist hasStorage l) = observers l ∧
  trace (persist hasStorage l) = trace l ∧
  isOpen (persist hasStorage l) = isOpen l ∧
  live (persist hasStorage l) = live l.
Proof. unfold persist. by destruct hasStorage. Qed.

Lemma request_effect operation forward l :
  opQueue (request nt operation forward l).2 = opQueue l ∧
  observers (request nt operation forward l).2 = observers l ∧
  local_ops (request nt operation forward l).2 = local_ops l ∧
  isOpen (request nt operation forward l).2 = isOpen l ∧
  ∃ evs, trace (request nt operation forward l).2 = trace l ++ evs ∧
         ∀ o, forwards o evs = 0%nat.
Proof.
  unfold request.
  destruct (extractKey nt operation (store l)) as [[k|e] σ]; simpl.
  - destruct (k_key k) as [key|]; simpl.
    + repeat case_match; simpl; split_and!; try done;
        first [ by exists [Forward forward (k_operation k) None]
              | exists []; by rewrite app_nil_r ].
    + split_and!; try done.
      by exists [Forward forward (k_operation k) None].
  - split_and!; try done. exists []. by rewrite app_nil_r.
Qed.

Lemma request_deferred operation forward l key op fwd opt l' :
  request nt operation forward l = (Ok (Deferred key op fwd opt), l') →
  isOpen l = false ∧ fwd = forward ∧
  opQueue l' = opQueue l ∧ observers l' = observers l ∧
  trace l' = trace l ∧ isOpen l' = false.
Proof.
  unfold request.
  destruct (extractKey nt operation (store l)) as [[k|e] σ]; [|done].
  destruct (k_key k) as [key'|]; [|done]. cbn [negb truthy].
  repeat case_match; intros; simplify_eq; simpl in *; try done.
Qed.

(** The queued observers after a subscription: the old ones, without
    the one that the new entry replaces, and the new observer. *)
Lemma set_observers key (e : OperationQueueEntry) q o :
  o ∈ map (λ p, entry_observer p.2) (Dict.set key e q) →
  o ∈ map (λ p, entry_observer p.2) q ∨ o = entry_observer e.
Proof.
  destruct (set_shape key e q)
    as [(l1 & w & l2 & -> & ->)|[[_ ->]|(_ & _ & ->)]]; [| |tauto].
  - rewrite !map_app. simpl. rewrite !elem_of_app, !elem_of_cons. tauto.
  - rewrite map_app. simpl. rewrite elem_of_app, list_elem_of_singleton. tauto.
Qed.

Lemma set_observers_NoDup key (e : OperationQueueEntry) q :
  NoDup (map (λ p, entry_observer p.2) q) →
  entry_observer e ∉ map (λ p, entry_observer p.2) q →
  NoDup (map (λ p, entry_observer p.2) (Dict.set key e q)).
Proof.
  intros Hnd Hfresh.
  destruct (set_shape key e q)
    as [(l1 & w & l2 & -> & ->)|[[_ ->]|(_ & _ & ->)]]; [| |done].
  - rewrite !map_app in *. simpl in *.
    rewrite NoDup_app in Hnd. destruct Hnd as (H1 & H12 & H2).
    apply NoDup_cons in H2 as [_ H2].
    rewrite elem_of_app, elem_of_cons in Hfresh.
    apply NoDup_app. split_and!; [done| |].
    + intros x Hx [->|Hx2]%elem_of_cons; [tauto|].
      apply (H12 x Hx). by right.
    + apply NoDup_cons. split; [tauto|done].
  - rewrite map_app. simpl. apply NoDup_app. split_and!; [done| |].
    + intros x Hx ?%list_elem_of_singleton. by subst.
    + apply NoDup_singleton.
Qed.

Lemma del_observers key (q : list (string * OperationQueueEntry)) o :
  o ∈ map (λ p, entry_observer p.2) (Dict.del key q) →
  o ∈ map (λ p, entry_observer p.2) q.
Proof.
  intros (p & -> & Hp)%list_elem_of_fmap.
  apply (list_elem_of_fmap_2
           (λ p : string * OperationQueueEntry, entry_observer p.2)).
  by apply (del_subseteq key q).
Qed.

Lemma del_observers_NoDup key (q : list (string * OperationQueueEntry)) :
  NoDup (map (λ p, entry_observer p.2) q) →
  NoDup (map (λ p, entry_observer p.2) (Dict.del key q)).
Proof.
  unfold Dict.del. induction q as [|p q IH]; [done|].
  simpl. intros [Hp Hq]%NoDup_cons. rewrite filter_cons.
  case_decide; [|by apply IH]. simpl. apply NoDup_cons. split; [|by apply IH].
  intros Hin. by apply Hp, (del_observers key).
Qed.

End steps.

Section invariants.
Variable nt : Js.NumberText.
Variable hasStorage : bool.

Lemma subscribe_effect r l :
  match r with
  | Downstream _ _ => (subscribe hasStorage r l).2 = l
  | Deferred key operation forward optimistic =>
      let entry := {| entry_optimisticResponse := optimistic;
                      entry_operation := operation;
                      entry_forward := forward;
                      entry_observer := observers l |} in
      (subscribe hasStorage r l).1
      = Some {| sub_key := key; sub_observer := observers l |} ∧
      opQueue (subscribe hasStorage r l).2 = Dict.set key entry (opQueue l) ∧
      observers (subscribe hasStorage r l).2 = S (observers l) ∧
      trace (subscribe hasStorage r l).2 = trace l ∧
      isOpen (subscribe hasStorage r l).2 = isOpen l ∧
      live (subscribe hasStorage r l).2 = observers l :: live l
  end.
Proof.
  destruct r as [f op|key op f opt]; [done|].
  unfold subscribe, enqueue. cbn [fst snd].
  match goal with
  | |- context [persist hasStorage ?l0] =>
      by destruct (persist_effect hasStorage l0) as (-> & -> & -> & -> & ->)
  end.
Qed.

Lemma subscribe_wf r l : wf_link l → wf_link (subscribe hasStorage r l).2.
Proof.
  intros (Hk & Ho & Hlt).
  pose proof (subscribe_effect r l) as H.
  destruct r as [f op|key op f opt]; [by rewrite H|].
  destruct H as (_ & Hq & Hn & _). unfold wf_link, queued_observers in *.
  rewrite Hq, Hn.
  assert (observers l ∉ map (λ p, entry_observer p.2) (opQueue l)) as Hfresh.
  { intros Hin. rewrite Forall_forall in Hlt. specialize (Hlt _ Hin). lia. }
  split_and!.
  - by apply set_keys_NoDup.
  - by apply set_observers_NoDup.
  - apply Forall_forall. intros o [Hin| ->]%set_observers; simpl; [|lia].
    rewrite Forall_forall in Hlt. specialize (Hlt _ Hin). lia.
Qed.

Lemma subscribe_gone o r l :
  o ∉ queued_observers l → (o < observers l)%nat →
  (o ∉ queued_observers (subscribe hasStorage r l).2) ∧
  (o < observers (subscribe hasStorage r l).2)%nat ∧
  trace (subscribe hasStorage r l).2 = trace l.
Proof.
  intros Hnot Hlt. pose proof (subscribe_effect r l) as H.
  destruct r as [f op|key op f opt]; [by rewrite H|].
  destruct H as (_ & Hq & Hn & Ht & _). unfold queued_observers in *.
  rewrite Hq, Hn, Ht. split_and!; [|lia|done].
  intros [Hin|Heq]%set_observers; [done|]. simpl in Heq. lia.
Qed.



Lemma unsubscribe_effect s l :
  opQueue (unsubscribe hasStorage s l)
  = (if bool_decide (sub_observer s ∈ live l)
     then Dict.del (sub_key s) (opQueue l) else opQueue l) ∧
  observers (unsubscribe hasStorage s l) = observers l ∧
  trace (unsubscribe hasStorage s l) = trace l ∧
  isOpen (unsubscribe hasStorage s l) = isOpen l.
Proof.
  unfold unsubscribe, cancelOperation. case_bool_decide; [|done].
  match goal with
  | |- context [persist hasStorage ?l0] =>
      by destruct (persist_effect hasStorage l0) as (-> & -> & -> & -> & _)
  end.
Qed.

Lemma open_effect l :
  opQueue (open hasStorage l) = [] ∧
  observers (open hasStorage l) = observers l ∧
  isOpen (open hasStorage l) = true ∧
  local_ops (open hasStorage l) = local_ops l ∧
  ∃ es : Snapshot,
    trace (open hasStorage l)
    = trace l ++ map (λ p, Mutate p.2) es ++ flush (opQueue l).
Proof.
  unfold open. destruct hasStorage.
  - destruct (rehydrate_effect true (with_gate true (Some OPEN_ON) l))
      as (Hq & Hn & Hg & Hs & es & Ht).
    unfold with_queue, emit. cbn [opQueue observers isOpen local_ops trace].
    rewrite Hq, Hn, Hs, Ht, Hg. simpl. split_and!; try done.
    exists es. by rewrite app_assoc.
  - simpl. split_and!; try done. by exists [].
Qed.

Lemma settle_effect i fulfilled l :
  opQueue (settle i fulfilled l) = opQueue l ∧
  observers (settle i fulfilled l) = observers l ∧
  isOpen (settle i fulfilled l) = isOpen l ∧
  ∃ evs, trace (settle i fulfilled l) = trace l ++ evs ∧
         ∀ o, forwards o evs = 0%nat.
Proof.
  unfold settle. destruct (pending l !! i) as [n|].
  - destruct (forallb _ _); simpl; split_and!; try done.
    + exists []. by rewrite app_nil_r.
    + by exists [Log LOG_MESSAGE].
  - split_and!; try done. exists []. by rewrite app_nil_r.
Qed.

Lemma close_effect l :
  opQueue (close hasStorage l) = opQueue l ∧
  observers (close hasStorage l) = observers l ∧
  trace (close hasStorage l) = trace l ∧
  local_ops (close hasStorage l) = local_ops l.
Proof. unfold close. by destruct hasStorage. Qed.

(** One entry per key, one observer per entry: kept by every step. *)
Lemma step_wf a l : wf_link l → wf_link (step nt hasStorage a l).
Proof.
  intros Hwf. destruct a as [op f|r|s| | |i fulfilled]; cbn [step].
  - destruct (request_effect nt op f l) as (Hq & Hn & _).
    destruct (request nt op f l) as [[r|e] l'] eqn:Hr; simpl in *.
    + apply subscribe_wf. unfold wf_link, queued_observers in *.
      by rewrite Hq, Hn.
    + unfold wf_link, queued_observers in *. by rewrite Hq, Hn.
  - by apply subscribe_wf.
  - destruct (unsubscribe_effect s l) as (Hq & Hn & _).
    destruct Hwf as (Hk & Ho & Hlt). unfold wf_link, queued_observers in *.
    rewrite Hq, Hn. case_bool_decide; [|done]. split_and!.
    + by apply del_keys_NoDup.
    + by apply del_observers_NoDup.
    + apply Forall_forall. intros o Hin%del_observers.
      rewrite Forall_forall in Hlt. by apply Hlt.
  - destruct (open_effect l) as (Hq & Hn & _).
    unfold wf_link, queued_observers. rewrite Hq. simpl.
    split_and!; constructor.
  - destruct (close_effect l) as (Hq & Hn & _).
    unfold wf_link, queued_observers in *. by rewrite Hq, Hn.
  - destruct (settle_effect i fulfilled l) as (Hq & Hn & _).
    unfold wf_link, queued_observers in *. by rewrite Hq, Hn.
Qed.

Lemma run_wf acts l : wf_link l → wf_link (run nt hasStorage acts l).
Proof.
  revert l. induction acts as [|a acts IH]; intros l Hwf; [done|].
  simpl. apply IH. by apply step_wf.
Qed.

(** An observer that is not queued any more is not queued again, and no
    step forwards its entry. *)
Lemma step_gone o a l :
  o ∉ queued_observers l → (o < observers l)%nat →
  (o ∉ queued_observers (step nt hasStorage a l)) ∧
  (o < observers (step nt hasStorage a l))%nat ∧
  ∃ evs, trace (step nt hasStorage a l) = trace l ++ evs ∧
         forwards o evs = 0%nat.
Proof.
  intros Hnot Hlt. destruct a as [op f|r|s| | |i fulfilled]; cbn [step].
  - destruct (request_effect nt op f l) as (Hq & Hn & _ & _ & evs & Ht & Hev).
    destruct (request nt op f l) as [[r|e] l'] eqn:Hr; simpl in *.
    + destruct (subscribe_gone o r l') as (H1 & H2 & H3).
      { unfold queued_observers. by rewrite Hq. }
      { by rewrite Hn. }
      split_and!; try done. exists evs. by rewrite H3, Ht.
    + unfold queued_observers. rewrite Hq, Hn. split_and!; try done.
      by exists evs.
  - destruct (subscribe_gone o r l Hnot Hlt) as (H1 & H2 & H3).
    split_and!; try done. exists []. by rewrite app_nil_r.
  - destruct (unsubscribe_effect s l) as (Hq & Hn & Ht & _).
    unfold queued_observers. rewrite Hq, Hn, Ht. split_and!; try done.
    + case_bool_decide; [|done]. by intros Hin%del_observers.
    + exists []. by rewrite app_nil_r.
  - destruct (open_effect l) as (Hq & Hn & _ & _ & es & Ht).
    unfold queued_observers. rewrite Hq, Hn, Ht. split_and!; try done.
    + apply not_elem_of_nil.
    + eexists. split; [done|].
      by rewrite forwards_app, forwards_mutations, forwards_flush_absent.
  - destruct (close_effect l) as (Hq & Hn & Ht & _).
    unfold queued_observers. rewrite Hq, Hn, Ht. split_and!; try done.
    exists []. by rewrite app_nil_r.
  - destruct (settle_effect i fulfilled l) as (Hq & Hn & _ & evs & Ht & Hev).
    unfold queued_observers. rewrite Hq, Hn. split_and!; try done.
    by exists evs.
Qed.

Lemma run_gone o acts l :
  o ∉ queued_observers l → (o < observers l)%nat →
  ∃ evs, trace (run nt hasStorage acts l) = trace l ++ evs ∧
         forwards o evs = 0%nat.
Proof.
  revert l. induction acts as [|a acts IH]; intros l Hnot Hlt.
  - exists []. by rewrite app_nil_r.
  - destruct (step_gone o a l Hnot Hlt) as (H1 & H2 & evs & Ht & Hev).
    destruct (IH _ H1 H2) as (evs' & Ht' & Hev').
    exists (evs ++ evs'). simpl. rewrite Ht', Ht, app_assoc. split; [done|].
    rewrite forwards_app. lia.
Qed.

Lemma since_app l l' evs : trace l' = trace l ++ evs → since l l' = evs.
Proof. intros H. unfold since. by rewrite H, drop_app_length. Qed.



End invariants.

Section queue.
Context {V : Type}.
Implicit Types (obj : list (string * V)) (k key : string) (v : V).

Lemma define_elem_of key v obj p :
  NoDup (obj.*1) → p ∈ Dict.define key v obj →
  p = (key, v) ∨ (p ∈ obj ∧ p.1 ≠ key).
Proof.
  induction obj as [|[k w] obj IH]; simpl.
  - intros _ ?%list_elem_of_singleton. by left.
  - intros [Hk Hnd]%NoDup_cons. case_bool_decide as Hkey.
    + subst. intros [->|Hin]%elem_of_cons; [by left|]. right.
      split; [by right|]. intros <-. apply Hk.
      by apply list_elem_of_fmap_2.
    + intros [->|Hin]%elem_of_cons.
      * right. split; [left|done].
      * destruct (IH Hnd Hin) as [->|[? ?]]; [by left|].
        right. split; [by right|done].
Qed.

Lemma set_elem_of key v obj p :
  NoDup (obj.*1) → p ∈ Dict.set key v obj →
  p = (key, v) ∨ (p ∈ obj ∧ p.1 ≠ key).
Proof.
  unfold Dict.set. case_bool_decide as Hp; [|apply define_elem_of].
  intros _ Hin. right. split; [done|]. intros Heq. destruct Hp as [_ Hnot].
  apply Hnot. rewrite <- Heq. by apply list_elem_of_fmap_2.
Qed.

Lemma entries_keys obj : (Dict.entries obj).*1 = Dict.keys obj.
Proof.
  unfold Dict.entries.
  assert (∀ k, k ∈ Dict.keys obj → k ∈ obj.*1) as Hks.
  { intros k. by rewrite keys_Permutation. }
  induction (Dict.keys obj) as [|k ks IH]; [done|].
  cbn [omap list_omap].
  destruct (Dict.get k obj) as [v|] eqn:Hv.
  - cbn [fmap option_fmap option_map]. rewrite fmap_cons. simpl. f_equal.
    apply IH. intros k' Hk'. apply Hks. by right.
  - apply get_None in Hv. destruct Hv. apply Hks. left.
Qed.

End queue.

(** C1: the code at the failing input.  On the closed link the operation
    with the override key [__proto__] is deferred.  When its observable is
    subscribed, the assignment under that key creates no property: the
    queue and its stored snapshot hold no entry.  [open] forwards nothing,
    and whatever happens afterwards the operation is never forwarded. *)
Lemma proto_key_is_never_forwarded :
  (request Sample.nt
     (Sample.operation 0 "id" "1" (Sample.override "__proto__")) 7
     (Sample.closed_link true)).1
  = Ok Sample.hidden ∧
  (subscribe true Sample.hidden (Sample.closed_link true)).1
  = Some {| sub_key := "__proto__"; sub_observer := 0 |} ∧
  opQueue (Sample.hidden_queued true) = [] ∧
  local_ops (Sample.hidden_queued true) = Some [] ∧
  trace (open true (Sample.hidden_queued true)) = [] ∧
  ∀ acts,
    forwards 0 (since (Sample.hidden_queued true)
                  (run Sample.nt true acts (Sample.hidden_queued true)))
    = 0%nat.
Proof.
  split_and!; try reflexivity.
  intros acts.
  destruct (run_gone Sample.nt true 0 acts (Sample.hidden_queued true))
    as (evs & Ht & Hev).
  - apply not_elem_of_nil.
  - simpl. lia.
  - by rewrite (since_app _ _ _ Ht).
Qed.

(** X22.  The queue holds at most one entry per key at every instant.
    With the gate closed, when a [request] is enqueued under the key of an
    entry that is already queued, and the key is not [__proto__], the queue
    holds the new entry under that key and the earlier entry is gone:
    whatever happens afterwards, its continuation is never called and its
    observer never subscribed.  When [open] runs, every entry that is then
    queued is forwarded exactly once, and never again afterwards. *)
Theorem one_entry_per_key nt hasStorage l
    operation1 forward1 operation2 forward2 key op1 fwd1 opt1 op2 fwd2 opt2
    la lb :
  wf_link l →
  key ≠ Js.PROTO →
  request nt operation1 forward1 l = (Ok (Deferred key op1 fwd1 opt1), la) →
  let first := subscribe hasStorage (Deferred key op1 fwd1 opt1) la in
  request nt operation2 forward2 first.2
  = (Ok (Deferred key op2 fwd2 opt2), lb) →
  let second := subscribe hasStorage (Deferred key op2 fwd2 opt2) lb in
  let o1 := observers l in
  (∀ acts, NoDup (opQueue (run nt hasStorage acts l)).*1) ∧
  isOpen l = false ∧
  entry_of key first.2
  = Some {| entry_optimisticResponse := opt1; entry_operation := op1;
            entry_forward := forward1; entry_observer := o1 |} ∧
  entry_of key second.2
  = Some {| entry_optimisticResponse := opt2; entry_operation := op2;
            entry_forward := forward2; entry_observer := S o1 |} ∧
  (o1 ∉ queued_observers second.2) ∧
  (∀ acts,
     forwards o1 (since second.2 (run nt hasStorage acts second.2)) = 0%nat) ∧
  (∀ k e, entry_of k second.2 = Some e →
     forwards (entry_observer e) (since second.2 (open hasStorage second.2))
     = 1%nat ∧
     ∀ acts,
       forwards (entry_observer e)
         (since (open hasStorage second.2)
            (run nt hasStorage acts (open hasStorage second.2)))
       = 0%nat).
Proof.
  intros Hwf Hkey H1 first H2 second o1. subst first second o1.
  apply request_deferred in H1 as (Hclosed & -> & Hqa & Hna & _).
  apply request_deferred in H2 as (_ & -> & Hqb & Hnb & _).
  assert (wf_link la) as Hwfa.
  { unfold wf_link, queued_observers in *. by rewrite Hqa, Hna. }
  pose proof (subscribe_wf hasStorage (Deferred key op1 forward1 opt1) la Hwfa)
    as Hwf1.
  destruct (subscribe_effect hasStorage (Deferred key op1 forward1 opt1) la)
    as (_ & Hq1 & Hn1 & _).
  assert (wf_link lb) as Hwfb.
  { unfold wf_link, queued_observers in *. by rewrite Hqb, Hnb. }
  pose proof (subscribe_wf hasStorage (Deferred key op2 forward2 opt2) lb Hwfb)
    as Hwf2.
  destruct (subscribe_effect hasStorage (Deferred key op2 forward2 opt2) lb)
    as (_ & Hq2 & Hn2 & _).
  rewrite Hqa, Hna in Hq1. rewrite Hna in Hn1.
  rewrite Hqb, Hnb, Hq1, Hn1 in Hq2. rewrite Hnb, Hn1 in Hn2.
  set (second := subscribe hasStorage (Deferred key op2 forward2 opt2) lb) in *.
  set (first := subscribe hasStorage (Deferred key op1 forward1 opt1) la) in *.
  assert (observers l ∉ queued_observers second.2) as Hgone.
  { unfold queued_observers. rewrite Hq2.
    intros ([k e] & Ho & Hin)%list_elem_of_fmap. simpl in Ho.
    pose proof (proj1 Hwf) as Hnd.
    apply set_elem_of in Hin as [Heq|[Hin Hk]]; [| |by apply set_keys_NoDup].
    - simplify_eq. simpl in Ho. lia.
    - apply set_elem_of in Hin as [Heq|[Hin _]]; [by simplify_eq| |done].
      destruct Hwf as (_ & _ & Hlt). rewrite Forall_forall in Hlt.
      assert (entry_observer e < observers l)%nat; [|lia].
      apply Hlt. unfold queued_observers.
      by apply (list_elem_of_fmap_2
                  (λ p : string * OperationQueueEntry, entry_observer p.2) _ (k, e)). }
  split_and!.
  - intros acts. by apply run_wf.
  - done.
  - unfold entry_of. rewrite Hq1. by apply get_set_eq.
  - unfold entry_of. rewrite Hq2. by apply get_set_eq.
  - done.
  - intros acts.
    destruct (run_gone nt hasStorage (observers l) acts second.2 Hgone)
      as (evs & Ht & Hev); [rewrite Hn2; lia|].
    by rewrite (since_app _ _ _ Ht).
  - intros k e He.
    destruct (open_effect hasStorage second.2) as (Hq & Hn & _ & _ & es & Ht).
    split.
    + rewrite (since_app _ _ _ Ht), forwards_app, forwards_mutations.
      destruct Hwf2 as (Hk2 & Ho2 & _). simpl.
      by apply (forwards_flush_once _ k e).
    + intros acts.
      destruct (run_gone nt hasStorage (entry_observer e) acts
                  (open hasStorage second.2)) as (evs & Ht' & Hev).
      * unfold queued_observers. rewrite Hq. apply not_elem_of_nil.
      * rewrite Hn. destruct Hwf2 as (_ & _ & Hlt).
        rewrite Forall_forall in Hlt. apply Hlt. unfold queued_observers.
        apply (list_elem_of_fmap_2
                 (λ p : string * OperationQueueEntry, entry_observer p.2) _ (k, e)).
        by apply get_elem_of.
      * by rewrite (since_app _ _ _ Ht').
Qed.

Lemma wf_closed_link hasStorage : wf_link (Sample.closed_link hasStorage).
Proof.
  unfold wf_link, queued_observers.
  destruct (close_effect hasStorage
              (create hasStorage Sample.documents None None)) as (Hq & _).
  unfold Sample.closed_link. rewrite Hq.
  destruct hasStorage; simpl; split_and!; constructor.
Qed.

Lemma one_entry_per_key_witness :
  forwards 0 (since (Sample.two_queued true)
                (run Sample.nt true [DoClose; DoOpen; DoOpen]
                   (Sample.two_queued true)))
  = 0%nat ∧
  forwards 1 (since (Sample.two_queued true) (open true (Sample.two_queued true)))
  = 1%nat.
Proof.
  destruct (one_entry_per_key Sample.nt true (Sample.closed_link true)
              (Sample.operation 0 "id" "1" (Sample.override "k1")) 7
              (Sample.operation 0 "id" "2" (Sample.override "k1")) 8
              "k1"
              (Sample.operation 0 "id" "1" (Sample.override "k1")) 7 Js.Undefined
              (Sample.operation 0 "id" "2" (Sample.override "k1")) 8 Js.Undefined
              (Sample.closed_link true) (Sample.one_queued true)
              (wf_closed_link true) ltac:(discriminate) eq_refl eq_refl)
    as (_ & _ & _ & Hsecond & _ & Hnever & Honce).
  split.
  - apply (Hnever [DoClose; DoOpen; DoOpen]).
  - apply (Honce "k1" _ Hsecond).
Defined.




(** C3, as amended.  [open] forwards every entry of the in-memory queue, in
    the order in which the host enumerates the keys of the queue object, to
    the continuation captured in the entry and subscribes the observer
    captured in it; afterwards the in-memory queue is empty and the gate is
    open.  [open] itself leaves the stored snapshot of the queue as it
    was. *)
Theorem open_flushes hasStorage l :
  NoDup (opQueue l).*1 →
  (∃ issued : Snapshot,
     trace (open hasStorage l)
     = trace l ++ map (λ p, Mutate p.2) issued
         ++ map (λ p, Forward (entry_forward p.2) (entry_operation p.2)
                              (Some (entry_observer p.2)))
                (Dict.entries (opQueue l))) ∧
  (Dict.entries (opQueue l)).*1 = Dict.keys (opQueue l) ∧
  Dict.entries (opQueue l) ≡ₚ opQueue l ∧
  opQueue (open hasStorage l) = [] ∧
  isOpen (open hasStorage l) = true ∧
  local_ops (open hasStorage l) = local_ops l.
Proof.
  intros Hnd.
  destruct (open_effect hasStorage l) as (Hq & _ & Hg & Hs & es & Ht).
  split_and!; try done.
  - by exists es.
  - apply entries_keys.
  - by apply entries_Permutation.
Qed.

Lemma open_flushes_witness :
  opQueue (open true (Sample.two_queued true)) = [] ∧
  local_ops (open true (Sample.two_queued true))
  = local_ops (Sample.two_queued true).
Proof.
  destruct (open_flushes true (Sample.two_queued true))
    as (_ & _ & _ & Hq & _ & Hs).
  - repeat constructor. by intros ?%elem_of_nil.
  - by split.
Defined.

(** C3, as stated, fails: with storage, after [open] has flushed the one
    queued entry the stored snapshot still holds that entry, and it still
    does after the rehydration batch that [open] started has failed. *)
Lemma open_keeps_snapshot :
  opQueue (open true (Sample.one_queued true)) = [] ∧
  local_ops (open true (Sample.one_queued true))
  = Some (snapshot Sample.documents (opQueue (Sample.one_queued true))) ∧
  (snapshot Sample.documents (opQueue (Sample.one_queued true))).*1 = ["k1"] ∧
  local_ops (settle 0 (λ _, false) (open true (Sample.one_queued true)))
  = Some (snapshot Sample.documents (opQueue (Sample.one_queued true))) ∧
  local_ops (open true (Sample.one_queued true)) ≠ None ∧
  local_ops (open true (Sample.one_queued true)) ≠ Some [].
Proof. repeat split; discriminate. Qed.

(** C9.  With storage and a stored snapshot, [open] hands every stored
    entry to the client as a mutation and starts one batch for them.  When
    the batch settles with every mutation fulfilled, the snapshot is
    removed from the storage.  When it settles with a mutation rejected,
    the snapshot stays as it was and the failure is logged; the link goes
    on with its queue and its gate as [open] left them, no error
    reaches the caller of [open]. *)
Theorem rehydration_settles l saved fulfilled :
  local_ops l = Some saved →
  NoDup (saved.*1) →
  trace (open true l)
  = trace l ++ map (λ p, Mutate p.2) (Dict.entries saved) ++ flush (opQueue l) ∧
  Dict.entries saved ≡ₚ saved ∧
  pending (open true l) = pending l ++ [length saved] ∧
  local_ops (open true l) = Some saved ∧
  if forallb fulfilled (seq 0 (length saved))
  then local_ops (settle (length (pending l)) fulfilled (open true l)) = None ∧
       trace (settle (length (pending l)) fulfilled (open true l))
       = trace (open true l)
  else local_ops (settle (length (pending l)) fulfilled (open true l))
       = Some saved ∧
       trace (settle (length (pending l)) fulfilled (open true l))
       = trace (open true l) ++ [Log LOG_MESSAGE] ∧
       opQueue (settle (length (pending l)) fulfilled (open true l)) = [] ∧
       isOpen (settle (length (pending l)) fulfilled (open true l)) = true.
Proof.
  intros Hs Hnd.
  pose proof (entries_Permutation saved Hnd) as Hperm.
  assert (length (map (λ p : string * StoredEntry, Mutate p.2)
                      (Dict.entries saved)) = length saved) as Hlen.
  { by rewrite length_map, Hperm. }
  assert (pending (open true l) = pending l ++ [length saved]) as Hp.
  { unfold open, rehydrateQueue. simpl. rewrite Hs. simpl. by rewrite Hlen. }
  assert (local_ops (open true l) = Some saved) as Hs'.
  { unfold open, rehydrateQueue. simpl. by rewrite Hs. }
  assert (trace (open true l)
          = trace l ++ map (λ p, Mutate p.2) (Dict.entries saved)
              ++ flush (opQueue l)) as Ht.
  { unfold open, rehydrateQueue. simpl. rewrite Hs. simpl.
    by rewrite app_assoc. }
  destruct (open_effect true l) as (Hq & _ & Hg & _).
  split_and!; try done.
  unfold settle. rewrite Hp, lookup_snoc.
  destruct (forallb fulfilled (seq 0 (length saved)));
    unfold with_local, emit, with_pending;
    cbn [local_ops trace opQueue isOpen].
  - done.
  - by rewrite Hs', Hq, Hg.
Qed.

Lemma rehydration_settles_witness :
  local_ops (settle 0 (λ n, bool_decide (n ≠ 0%nat))
               (open true (Sample.one_queued true)))
  = local_ops (Sample.one_queued true) ∧
  local_ops (settle 0 (λ _, true) (open true (Sample.one_queued true)))
  = None.
Proof.
  split.
  - refine (proj1 (proj2 (proj2 (proj2 (proj2
      (rehydration_settles (Sample.one_queued true)
         (default [] (local_ops (Sample.one_queued true)))
         (λ n, bool_decide (n ≠ 0%nat)) eq_refl _)))))).
    repeat constructor. by intros ?%elem_of_nil.
  - refine (proj1 (proj2 (proj2 (proj2 (proj2
      (rehydration_settles (Sample.one_queued true)
         (default [] (local_ops (Sample.one_queued true)))
         (λ _, true) eq_refl _)))))).
    repeat constructor. by intros ?%elem_of_nil.
Defined.

(** A new link holds one entry per key: it holds none. *)
Lemma create_wf hasStorage σ session local :
  wf_link (create hasStorage σ session local).
Proof.
  unfold create, wf_link, queued_observers.
  match goal with
  | |- context [rehydrateQueue hasStorage ?l0] =>
      destruct (rehydrate_effect hasStorage l0) as (Hq & _)
  end.
  rewrite Hq. simpl. split_and!; constructor.
Qed.

(** * Further properties *)

(** ** The walker and the variables of arguments *)

Section walker_more.

Lemma concat_map_sublist {A B} (f g : A → list B) (l : list A) :
  Forall (λ x, f x `sublist_of` g x) l →
  concat (map f l) `sublist_of` concat (map g l).
Proof.
  induction 1 as [|x l Hx _ IH]; simpl; [done|]. by apply sublist_app.
Qed.

Lemma concat_map_ext {A B} (f g : A → list B) (l : list A) :
  Forall (λ x, f x = g x) l → concat (map f l) = concat (map g l).
Proof. induction 1 as [|x l Hx _ IH]; simpl; [done|]. by rewrite Hx, IH. Qed.

Lemma elem_of_concat_map {A B} (f : A → list B) (l : list A) y :
  y ∈ concat (map f l) ↔ ∃ x, x ∈ l ∧ y ∈ f x.
Proof.
  induction l as [|x l IH]; simpl.
  - split; [by intros ?%elem_of_nil|by intros (x & ?%elem_of_nil & _)].
  - rewrite elem_of_app, IH. split.
    + intros [Hy|(x' & Hx' & Hy)]; [exists x; split; [left|done]|].
      exists x'. split; [by right|done].
    + intros (x' & [->|Hx']%elem_of_cons & Hy); [by left|].
      right. by exists x'.
Qed.

Lemma visited_sublist_selection :
  ∀ s, Visited.selection s `sublist_of` Reachable.selection s.
Proof.
  fix IH 1. intros [f args ds ss | f ds | t ds ss]; simpl.
  - apply sublist_app; [done|]. apply sublist_app; [done|].
    destruct ss as [ss|]; [|done].
    apply concat_map_sublist.
    induction ss as [|s ss IHss]; constructor; [apply IH|apply IHss].
  - done.
  - by apply sublist_inserts_r.
Qed.

Lemma visited_sublist_set ss :
  Visited.selection_set ss `sublist_of` Reachable.selection_set ss.
Proof.
  destruct ss as [ss|]; simpl; [|done].
  apply concat_map_sublist, Forall_forall. intros s _.
  apply visited_sublist_selection.
Qed.

Lemma fields_only_selection :
  ∀ s, fields_only s = true → Visited.selection s = Reachable.selection s.
Proof.
  fix IH 1. intros [f args ds ss | f ds | t ds ss]; simpl; [|done..].
  intros Hss. do 2 f_equal. destruct ss as [ss|]; [|done].
  apply concat_map_ext.
  induction ss as [|s ss IHss]; [constructor|].
  simpl in Hss. apply andb_true_iff in Hss as [Hs Hss].
  constructor; [by apply IH|by apply IHss].
Qed.

Lemma fields_only_selection_set ss :
  fields_only_set ss = true →
  Visited.selection_set ss = Reachable.selection_set ss.
Proof.
  destruct ss as [ss|]; simpl; [|done]. intros Hss.
  apply concat_map_ext, Forall_forall. intros s Hs.
  apply fields_only_selection.
  rewrite forallb_forall in Hss. apply Hss. by apply list_elem_of_In.
Qed.

Lemma variables_occur_value :
  ∀ v x, x ∈ getVariablesFromValueNode v → occurs x v.
Proof.
  fix IH 1. intros v x. destruct v as [y| | | | | | |values|fields];
    cbn [getVariablesFromValueNode]; try by intros ?%elem_of_nil.
  - intros ->%list_elem_of_singleton. constructor.
  - rewrite reduce_concat_concat. intros Hx.
    assert (∃ v, v ∈ values ∧ occurs x v) as (v & Hv & Ho);
      [|by apply (occurs_list x values v)].
    induction values as [|v values IHvs]; simpl in Hx;
      [by apply elem_of_nil in Hx|].
    apply elem_of_app in Hx as [Hx|Hx].
    + exists v. split; [left|by apply IH].
    + destruct (IHvs Hx) as (w & Hw & Ho). exists w. split; [by right|done].
  - rewrite reduce_concat_concat. intros Hx.
    assert (∃ f, f ∈ fields ∧ occurs x f.2) as (f & Hf & Ho);
      [|by apply (occurs_object x fields f)].
    induction fields as [|f fields IHfs]; simpl in Hx;
      [by apply elem_of_nil in Hx|].
    apply elem_of_app in Hx as [Hx|Hx].
    + exists f. split; [left|by apply IH].
    + destruct (IHfs Hx) as (w & Hw & Ho). exists w. split; [by right|done].
Qed.

Lemma occurs_variables v x : occurs x v → x ∈ getVariablesFromValueNode v.
Proof.
  induction 1 as [|values v Hv _ IH|fields f Hf _ IH];
    cbn [getVariablesFromValueNode].
  - apply list_elem_of_singleton. done.
  - rewrite reduce_concat_concat. apply elem_of_concat_map. by exists v.
  - rewrite reduce_concat_concat.
    apply (elem_of_concat_map (λ f, getVariablesFromValueNode f.2)).
    by exists f.
Qed.

End walker_more.

(** X1.  The walker returns arguments of the document only, and none more
    often than the document holds it: its result is a subsequence of the
    list of all arguments of the document, in which every selection lists
    the arguments of its directives, then its own arguments, then those of
    its nested selections. *)
Theorem walker_sound doc :
  getAllArgumentsFromDocument doc `sublist_of` Reachable.document doc.
Proof.
  rewrite document_visited. unfold Visited.document, Reachable.document.
  apply concat_map_sublist, Forall_forall. intros [op|frag|k] _; simpl.
  - apply sublist_app; [done|apply visited_sublist_set].
  - apply sublist_app; [done|apply visited_sublist_set].
  - done.
Qed.

Lemma document_complete_on_fields doc :
  fields_only_document doc = true →
  getAllArgumentsFromDocument doc = Reachable.document doc.
Proof.
  intros Hdoc. rewrite document_visited.
  unfold Visited.document, Reachable.document.
  apply concat_map_ext, Forall_forall. intros d Hd.
  unfold fields_only_document in Hdoc. rewrite forallb_forall in Hdoc.
  specialize (Hdoc d (proj1 (list_elem_of_In _ _) Hd)).
  destruct d as [op|frag|k]; simpl in *; [| |done];
    by rewrite fields_only_selection_set.
Qed.

(** X2.  For a document without inline fragment the walker returns all
    reachable arguments: fields at any depth, fragment definitions and the
    directives of fragment spreads are covered. *)
Theorem walker_complete_on_fields doc :
  fields_only_document doc = true →
  getAllArgumentsFromDocument doc = Reachable.document doc.
Proof. apply document_complete_on_fields. Qed.

Lemma walker_complete_on_fields_witness :
  getAllArgumentsFromDocument Sample.doc_used
  = Reachable.document Sample.doc_used.
Proof. apply (walker_complete_on_fields Sample.doc_used). reflexivity. Defined.

(** X3.  The variables collected from a list of arguments are exactly the
    variables that occur in the value of one of the arguments, at any depth
    of list and object literals. *)
Theorem variables_of_arguments args x :
  x ∈ getVariablesFromArguments args ↔
  ∃ a, a ∈ args ∧ occurs x (arg_value a).
Proof.
  unfold getVariablesFromArguments. rewrite reduce_concat_concat.
  rewrite (elem_of_concat_map (λ arg, getVariablesFromValueNode (arg_value arg))).
  split; intros (a & Ha & Hx); exists a; split; try done.
  - by apply variables_occur_value.
  - by apply occurs_variables.
Qed.

(** ** The store under extraction *)

Section store_more.

Lemma removeVariableDefinitions_store names r σ res σ' :
  removeVariableDefinitionsFromDocumentIfUnused names r σ = (res, σ') →
  documentCache σ' = documentCache σ ∧
  (heap σ' = heap σ ∨ ∃ d, heap σ' = <[r := d]> (heap σ)).
Proof.
  unfold removeVariableDefinitionsFromDocumentIfUnused.
  unfold bind, read, lift, ret, throw, write. intros H.
  repeat case_match; simplify_eq; simpl; eauto.
Qed.

Lemma removeDirective_store r directive σ res σ' :
  removeDirectiveFromDocument r directive σ = (res, σ') →
  documentCache σ' = documentCache σ ∧
  ∃ tail, heap σ' = heap σ ++ tail.
Proof.
  assert (documentCache σ = documentCache σ ∧
          ∃ tail, heap σ = heap σ ++ tail) as Hsame.
  { split; [done|]. exists []. by rewrite app_nil_r. }
  assert (∀ x c, documentCache {| heap := heap σ ++ [x]; documentCache := c |}
                 = c ∧
                 ∃ tail, heap {| heap := heap σ ++ [x]; documentCache := c |}
                         = heap σ ++ tail) as Hone.
  { intros x c. split; [done|]. by exists [x]. }
  destruct directive as [[i node]|]; [|by (unfold ret, throw; intros [= <- <-])].
  unfold removeDirectiveFromDocument, cloneDeep.
  unfold bind at 1. unfold bind at 1. unfold read at 1.
  destruct (heap σ !! r) as [d|] eqn:Hr; [|by (unfold ret, throw; intros [= <- <-])].
  unfold bind at 1. unfold read at 1. cbn [heap documentCache].
  destruct ((heap σ ++ [d]) !! r) as [original|];
    [|unfold ret, throw; intros [= <- <-]; apply Hone].
  unfold bind at 1. unfold lift at 1.
  destruct (getOperationDefinition original) as [orig|e];
    [|unfold ret, throw; intros [= <- <-]; apply Hone].
  unfold bind at 1. unfold read at 1. cbn [heap documentCache].
  rewrite lookup_snoc.
  unfold bind at 1. unfold lift at 1.
  destruct (getOperationDefinition d) as [copy|e];
    [|unfold ret, throw; intros [= <- <-]; apply Hone].
  destruct orig as [orig|]; [|unfold ret, throw; intros [= <- <-]; apply Hone].
  destruct copy as [copy|]; [|unfold ret, throw; intros [= <- <-]; apply Hone].
  destruct (op_directives orig) as [ds|]; [|unfold ret, throw; intros [= <- <-]; apply Hone].
  unfold bind at 1. unfold write at 1. cbn [heap documentCache].
  rewrite insert_snoc.
  destruct (dir_arguments node) as [arguments|];
    [|unfold ret, throw; intros [= <- <-]; apply Hone].
  unfold bind at 1.
  match goal with
  | |- context [removeVariableDefinitionsFromDocumentIfUnused ?ns ?c ?s] =>
      destruct (removeVariableDefinitionsFromDocumentIfUnused ns c s)
        as [res0 σ0] eqn:Hrm;
      apply removeVariableDefinitions_store in Hrm as (Hc & Hh)
  end.
  cbn [heap documentCache] in Hc, Hh.
  assert (documentCache σ0 = documentCache σ ∧
          ∃ tail, heap σ0 = heap σ ++ tail) as H0.
  { split; [done|]. destruct Hh as [Hh|[x Hh]].
    - by eexists.
    - rewrite insert_snoc in Hh. by eexists. }
  destruct res0 as [[]|e]; unfold ret; by (unfold ret, throw; intros [= <- <-]).
Qed.

Local Ltac store_same :=
  unfold ret, throw; intros [= <- <-];
  split_and!; [exists []; by rewrite app_nil_r | done | intros; congruence].

Lemma extract_store r σ res σ' :
  extractDirectiveArguments r σ = (res, σ') →
  (∃ tail, heap σ' = heap σ ++ tail) ∧
  (∀ r', r' ≠ r → documentCache σ' !! r' = documentCache σ !! r') ∧
  (∀ hit, documentCache σ !! r = Some hit → documentCache σ' !! r = Some hit).
Proof.
  unfold extractDirectiveArguments, cache_get.
  unfold bind at 1.
  destruct (documentCache σ !! r) as [hit|] eqn:Hhit; [store_same|].
  unfold bind at 1. unfold read at 1.
  destruct (heap σ !! r) as [d|]; [|store_same].
  unfold bind at 1. unfold lift at 1.
  destruct (checkDocument d) as [[]|e]; [|store_same].
  unfold bind at 1. unfold lift at 1.
  destruct (getOperationDefinition d) as [op|e]; [|store_same].
  unfold bind at 1. unfold lift at 1.
  destruct (extractDirective op DIRECTIVE_NAME) as [[[i node]|]|e];
    [|store_same..].
  destruct (dir_arguments node) as [arguments|]; [|store_same].
  destruct (list_find _ arguments) as [[j argument]|]; [|store_same].
  case_bool_decide; [store_same|].
  unfold bind at 1.
  destruct (removeDirectiveFromDocument r (Some (i, node)) σ)
    as [res0 σ0] eqn:Hrm.
  apply removeDirective_store in Hrm as (Hc & tail & Hh).
  destruct res0 as [newDoc|e].
  - unfold bind, cache_set, ret. intros [= <- <-]. cbn [heap documentCache].
    split_and!.
    + by exists tail.
    + intros r' Hr'. by rewrite lookup_insert_ne, Hc.
    + intros hit Hhit'. congruence.
  - unfold throw. intros [= <- <-]. split_and!.
    + by exists tail.
    + intros r' Hr'. by rewrite Hc.
    + intros hit Hhit'. congruence.
Qed.

End store_more.

(** X4.  Extraction never writes to a document that is already in the
    heap, whatever the document and whether it succeeds or throws: the heap
    only grows at its end (by the clone), and the cache keeps every entry it
    has and can only gain one under the extracted document. *)
Theorem extraction_only_adds r σ :
  (∀ r' d, heap σ !! r' = Some d →
           heap (extractDirectiveArguments r σ).2 !! r' = Some d) ∧
  (∀ r' hit, documentCache σ !! r' = Some hit →
             documentCache (extractDirectiveArguments r σ).2 !! r' = Some hit) ∧
  (∀ r', r' ≠ r →
         documentCache (extractDirectiveArguments r σ).2 !! r'
         = documentCache σ !! r').
Proof.
  destruct (extractDirectiveArguments r σ) as [res σ'] eqn:Hex.
  apply extract_store in Hex as ((tail & Hh) & Hne & Heq). cbn [snd].
  split_and!.
  - intros r' d Hd. rewrite Hh, lookup_app_l; [done|].
    by eapply lookup_lt_Some.
  - intros r' hit Hhit. destruct (decide (r' = r)) as [->|Hr'].
    + by apply Heq.
    + by rewrite Hne.
  - done.
Qed.

(** ** [extractKey]: cache, repeats, override, shape of the key *)

Section extractKey_more.

Lemma extractKey_store nt operation σ :
  (extractKey nt operation σ).2
  = if truthy (serializationKey (getContext operation)) then σ
    else (extractDirectiveArguments (query operation) σ).2.
Proof.
  unfold extractKey. destruct (truthy _); [done|].
  unfold bind at 1.
  destruct (extractDirectiveArguments (query operation) σ) as [[res|e] σ1];
    [|done].
  destruct (ret_args res) as [args|]; [|done].
  unfold bind, lift, ret. by destruct (materializeKey _ _ _).
Qed.

Lemma extract_ok_cached r σ res σ1 args :
  extractDirectiveArguments r σ = (Ok res, σ1) →
  ret_args res = Some args →
  documentCache σ1 !! r = Some res.
Proof.
  intros H Hargs.
  unfold extractDirectiveArguments, cache_get in H.
  unfold bind at 1 in H.
  destruct (documentCache σ !! r) as [hit|] eqn:Hhit.
  { unfold ret in H. by simplify_eq. }
  unfold bind, read, lift, throw, ret, cache_set in H.
  repeat match type of H with
         | context [match ?x with _ => _ end] => destruct x eqn:?
         | context [if ?x then _ else _] => destruct x eqn:?
         end; simplify_eq; simpl in *; try done.
  apply lookup_insert_eq.
Qed.

Lemma extract_ok_unkeyed r σ res σ1 :
  extractDirectiveArguments r σ = (Ok res, σ1) →
  ret_args res = None →
  σ1 = σ.
Proof.
  intros H Hargs.
  unfold extractDirectiveArguments, cache_get in H.
  unfold bind at 1 in H.
  destruct (documentCache σ !! r) as [hit|] eqn:Hhit.
  { unfold ret in H. by simplify_eq. }
  unfold bind, read, lift, throw, ret, cache_set in H.
  repeat match type of H with
         | context [match ?x with _ => _ end] => destruct x eqn:?
         | context [if ?x then _ else _] => destruct x eqn:?
         end; simplify_eq; simpl in *; try done.
  by destruct (heap σ !! r); simplify_eq.
Qed.

Lemma extract_stable r σ res σ1 :
  extractDirectiveArguments r σ = (Ok res, σ1) →
  extractDirectiveArguments r σ1 = (Ok res, σ1).
Proof.
  intros H. destruct (ret_args res) as [args|] eqn:Hargs.
  - apply extract_hit. by eapply extract_ok_cached.
  - pose proof (extract_ok_unkeyed _ _ _ _ H Hargs) as ->. done.
Qed.

End extractKey_more.

Lemma cache_exact_empty h : cache_exact {| heap := h; documentCache := ∅ |}.
Proof. intros r hit H. simpl in H. by rewrite lookup_empty in H. Qed.

Lemma extract_cache_exact r σ d :
  cache_exact σ → heap σ !! r = Some d → parsed d →
  cache_exact (extractDirectiveArguments r σ).2.
Proof.
  intros Hok Hr Hp.
  destruct (documentCache σ !! r) as [hit|] eqn:Hc.
  { by rewrite (extract_hit _ _ _ Hc). }
  rewrite (extract_miss _ _ _ Hc Hr Hp).
  destruct (annotation d) as [[i node]|] eqn:Ha; [|done].
  destruct (annotation_arguments d i node Hp Ha)
    as (op & ds & arguments & _ & _ & _ & Hargs).
  rewrite Hargs. cbn [default from_option id].
  destruct (key_shape arguments) as [| |values] eqn:Hk; [done..|].
  intros r0 hit Hhit. simpl in Hhit.
  destruct (decide (r0 = r)) as [->|Hne].
  - rewrite lookup_insert_eq in Hhit. simplify_eq.
    exists d, i, node, arguments, values. simpl.
    rewrite lookup_app_l by by eapply lookup_lt_Some.
    rewrite lookup_snoc. by split_and!.
  - rewrite lookup_insert_ne in Hhit by done.
    destruct (Hok _ _ Hhit)
      as (d0 & i0 & n0 & a0 & v0 & Hr0 & ? & ? & ? & ? & ? & Hdoc).
    exists d0, i0, n0, a0, v0. simpl.
    rewrite !lookup_app_l by by eapply lookup_lt_Some. by split_and!.
Qed.

(** X5.  Extraction through [extractKey] keeps the cache exact: every
    cached result is stored under a document with annotation, and it holds
    the key list of that annotation and the address of the rewritten
    document, which is the document without the annotation and without the
    declarations that the rewriter drops. *)
Theorem extractKey_keeps_cache nt operation σ d :
  cache_exact σ →
  heap σ !! query operation = Some d →
  parsed d →
  cache_exact (extractKey nt operation σ).2.
Proof.
  intros Hok Hr Hp. rewrite extractKey_store.
  destruct (truthy _); [done|]. by apply (extract_cache_exact _ _ d).
Qed.

Lemma extractKey_keeps_cache_witness :
  cache_exact (extractKey Sample.nt (Sample.operation 1 "id" "42" Sample.plain)
                 Sample.documents).2.
Proof.
  apply (extractKey_keeps_cache Sample.nt
           (Sample.operation 1 "id" "42" Sample.plain)
           Sample.documents Sample.doc_used).
  - apply cache_exact_empty.
  - reflexivity.
  - apply parsed_doc_used.
Defined.

(** X6.  A successful [extractKey] is stable: calling it again on the same
    operation, in the store that the first call left, returns the same
    operation (the same rewritten document object) and the same key, and
    leaves the store as it is. *)
Theorem extractKey_stable nt operation σ k σ1 :
  extractKey nt operation σ = (Ok k, σ1) →
  extractKey nt operation σ1 = (Ok k, σ1).
Proof.
  unfold extractKey. destruct (truthy _).
  { unfold ret. by intros [= <- <-]. }
  unfold bind at 1 3.
  destruct (extractDirectiveArguments (query operation) σ)
    as [[res|e] σ'] eqn:Hex; [|done].
  pose proof (extract_stable _ _ _ _ Hex) as Hagain.
  destruct (ret_args res) as [args|] eqn:Hargs.
  - unfold bind, lift, ret.
    destruct (materializeKey nt args (variables operation)) as [key|e] eqn:Hm;
      [|done].
    intros [= <- <-]. by rewrite Hagain, Hargs, Hm.
  - unfold ret. intros [= <- <-]. by rewrite Hagain, Hargs.
Qed.

Lemma extractKey_stable_witness :
  extractKey Sample.nt (Sample.operation 1 "id" "42" Sample.plain)
    (extractKey Sample.nt (Sample.operation 1 "id" "42" Sample.plain)
       Sample.documents).2
  = (Ok {| k_operation := Sample.operation 4 "id" "42" Sample.plain;
           k_key := Some (Js.stringify_array Sample.nt [Js.Str "42"]) |},
     (extractKey Sample.nt (Sample.operation 1 "id" "42" Sample.plain)
        Sample.documents).2).
Proof.
  apply (extractKey_stable Sample.nt
           (Sample.operation 1 "id" "42" Sample.plain) Sample.documents).
  reflexivity.
Defined.

(** X7.  The key, the absence of a key or the error that [extractKey]
    answers depends on the contents of the document and on the variables
    only: two operations with the same variables whose documents have the
    same contents get the same answer, whatever the addresses of the
    documents and whatever the two caches hold. *)
Theorem extractKey_answer_by_content nt operation1 operation2 σ1 σ2 d :
  cache_ok σ1 → cache_ok σ2 →
  heap σ1 !! query operation1 = Some d →
  heap σ2 !! query operation2 = Some d →
  parsed d →
  truthy (serializationKey (getContext operation1)) = false →
  truthy (serializationKey (getContext operation2)) = false →
  variables operation1 = variables operation2 →
  answer (extractKey nt operation1 σ1).1
  = answer (extractKey nt operation2 σ2).1.
Proof.
  intros Hok1 Hok2 Hr1 Hr2 Hp Ho1 Ho2 Hv. unfold answer.
  rewrite (extractKey_key nt operation1 σ1 d) by done.
  rewrite (extractKey_key nt operation2 σ2 d) by done.
  by rewrite Hv.
Qed.

Lemma extractKey_answer_by_content_witness :
  answer (extractKey Sample.nt (Sample.operation 1 "id" "42" Sample.plain)
            Sample.documents).1
  = answer (extractKey Sample.nt (Sample.operation 0 "id" "42" Sample.plain)
              {| heap := [Sample.doc_used]; documentCache := ∅ |}).1.
Proof.
  apply (extractKey_answer_by_content Sample.nt
           (Sample.operation 1 "id" "42" Sample.plain)
           (Sample.operation 0 "id" "42" Sample.plain)
           Sample.documents
           {| heap := [Sample.doc_used]; documentCache := ∅ |}
           Sample.doc_used);
    try reflexivity; try apply cache_ok_empty.
  apply parsed_doc_used.
Defined.

(** X8.  A key that [materializeKey] returns begins with an opening
    bracket: it is never empty, so the operation counts as keyed, and it is
    never an array index, so the queue keeps it in creation order. *)
Theorem materialized_key_shape nt argumentList variables key :
  materializeKey nt argumentList variables = Ok key →
  (∃ rest, key = String "[" rest) ∧
  truthy (Some key) = true ∧
  Dict.array_index key = None.
Proof.
  unfold materializeKey. destruct argumentList; try done.
  destruct (mapR _ _) as [vals|e]; [|done]. simpl. intros [= <-].
  split_and!; [by eexists|done|done].
Qed.

Lemma materialized_key_shape_witness :
  (∃ rest, text_1_a_true = String "[" rest) ∧
  truthy (Some text_1_a_true) = true ∧
  Dict.array_index text_1_a_true = None.
Proof.
  apply (materialized_key_shape Sample.nt
           (ListValue [IntValue "1"; StringValue "a"; BooleanValue true])
           (Some [])).
  reflexivity.
Defined.

(** X9.  An override key in the context of the operation decides alone:
    [extractKey] answers that key with the operation as it came, without
    reading the document or the store, so that neither a missing document
    nor a malformed annotation raises; a closed gate defers the operation
    under that key unless the context skips the queue. *)
Theorem override_key_decides nt operation forward σ l key :
  serializationKey (getContext operation) = Some key →
  key ≠ "" →
  extractKey nt operation σ
  = (Ok {| k_operation := operation; k_key := Some key |}, σ) ∧
  request nt operation forward l
  = if isOpen l || skipQueue (getContext operation)
    then (Ok (Downstream forward operation),
          emit [Forward forward operation None] l)
    else (Ok (Deferred key operation forward
                (optimisticResponse (getContext operation))), l).
Proof.
  intros Hkey Hne.
  assert (truthy (Some key) = true) as Ht by by apply bool_decide_eq_true_2.
  assert (extractKey nt operation σ
          = (Ok {| k_operation := operation; k_key := Some key |}, σ)) as Hex.
  { unfold extractKey. by rewrite Hkey, Ht. }
  split; [done|]. unfold request, extractKey. rewrite Hkey, Ht.
  unfold ret. cbn [k_key k_operation]. rewrite Ht, with_store_id. simpl.
  destruct (isOpen l); [done|]. simpl. by destruct (skipQueue _).
Qed.

Lemma override_key_decides_witness :
  request Sample.nt
    {| query := 99; variables := None; operationName := "M";
       getContext := Sample.override "k1" |}
    7 (Sample.closed_link true)
  = (Ok (Deferred "k1"
           {| query := 99; variables := None; operationName := "M";
              getContext := Sample.override "k1" |}
           7 Js.Undefined),
     Sample.closed_link true).
Proof.
  apply (override_key_decides Sample.nt
           {| query := 99; variables := None; operationName := "M";
              getContext := Sample.override "k1" |}
           7 Sample.documents (Sample.closed_link true) "k1").
  - reflexivity.
  - discriminate.
Defined.

(** ** The rewritten document *)

Section rewritten_more.

Lemma list_find_delete_unique {A} (P : A → Prop) `{∀ x, Decision (P x)}
    (l : list A) i x :
  list_find P l = Some (i, x) →
  length (filter P l) = 1%nat →
  list_find P (delete i l) = None.
Proof.
  intros (Hi & Hx & _)%list_find_Some Hlen.
  rewrite <- (take_drop_middle l i x Hi) in Hlen.
  rewrite filter_app, filter_cons_True, length_app in Hlen by done.
  simpl in Hlen.
  apply list_find_None, Forall_forall. intros y Hy Py.
  rewrite delete_take_drop in Hy.
  assert (filter P (take i l) = [] ∧ filter P (drop (S i) l) = []) as [H1 H2].
  { split; apply length_zero_iff_nil; lia. }
  apply elem_of_app in Hy as [Hy|Hy].
  - by apply (filter_nil_not_elem_of P _ y H1).
  - by apply (filter_nil_not_elem_of P _ y H2).
Qed.

Lemma rewritten_check i node d :
  checkDocument (rewritten i node d) = checkDocument d.
Proof.
  unfold rewritten, prune.
  rewrite (checkDocument_update _ (strip i d)). unfold strip.
  by rewrite (checkDocument_update _ d).
Qed.

Lemma rewritten_parsed i node d :
  parsed d → parsed (rewritten i node d).
Proof.
  intros (Hck & op & ds & Hop & Hds & Hall). split.
  - by rewrite rewritten_check.
  - eexists _, (delete i ds). split; [by apply rewritten_operation|].
    simpl. rewrite Hds. split; [done|]. by apply Forall_delete.
Qed.

Lemma rewritten_annotation i node d :
  annotation d = Some (i, node) → serialize_count d = 1%nat →
  annotation (rewritten i node d) = None.
Proof.
  unfold annotation, serialize_count. intros Ha Hcount.
  destruct (the_operation d) as [op|] eqn:Hop; [|done].
  rewrite (rewritten_operation i node d op Hop). simpl in *.
  destruct (op_directives op) as [ds|]; [|done]. simpl in *.
  by apply (list_find_delete_unique _ ds i node).
Qed.

(** Arguments are looked for in directives and selections, not in the
    declarations of variables. *)
Lemma reachable_prune names d :
  Reachable.document (prune names d) = Reachable.document d.
Proof.
  unfold Reachable.document, prune. simpl. f_equal.
  induction (definitions d) as [|[op|frag|k] defs IH]; simpl; [done|done|..];
    by rewrite IH.
Qed.

Lemma fields_only_strip i d :
  fields_only_document (strip i d) = fields_only_document d.
Proof.
  unfold fields_only_document, strip. simpl.
  induction (definitions d) as [|[op|frag|k] defs IH]; simpl; [done|done|..];
    by rewrite IH.
Qed.

End rewritten_more.

(** X10.  After the first extraction of a parsed document whose operation
    carries exactly one serialize directive, the rewritten document carries
    none: extracting the rewritten document returns it as it is, with no key
    expression, and changes nothing. *)
Theorem rewritten_document_is_plain r σ d res σ1 :
  cache_ok σ →
  documentCache σ !! r = None →
  heap σ !! r = Some d →
  parsed d →
  serialize_count d = 1%nat →
  extractDirectiveArguments r σ = (Ok res, σ1) →
  extractDirectiveArguments (ret_doc res) σ1
  = (Ok {| ret_doc := ret_doc res; ret_args := None |}, σ1).
Proof.
  intros Hok Hmiss Hr Hp Hcount Hex.
  pose proof (extract_cache_ok r σ d Hok Hr Hp) as Hok1.
  rewrite Hex in Hok1. cbn [snd] in Hok1.
  rewrite (extract_miss r σ d Hmiss Hr Hp) in Hex.
  destruct (annotation d) as [[i node]|] eqn:Ha.
  - destruct (key_shape _) as [| |values]; [done..|].
    cbn zeta in Hex. injection Hex as <- <-. cbn [ret_doc].
    apply (extract_no_annotation _ _ (rewritten i node d)).
    + done.
    + cbn [heap]. apply lookup_snoc.
    + by apply rewritten_parsed.
    + by apply rewritten_annotation.
  - injection Hex as <- <-. cbn [ret_doc].
    by apply (extract_no_annotation _ _ d).
Qed.

Lemma rewritten_document_is_plain_witness :
  extractDirectiveArguments 4 (extractDirectiveArguments 1 Sample.documents).2
  = (Ok {| ret_doc := 4; ret_args := None |},
     (extractDirectiveArguments 1 Sample.documents).2).
Proof.
  apply (rewritten_document_is_plain 1 Sample.documents Sample.doc_used
           {| ret_doc := 4;
              ret_args := Some (ListValue [Var {| name := "id" |}]) |}).
  - apply cache_ok_empty.
  - reflexivity.
  - reflexivity.
  - apply parsed_doc_used.
  - reflexivity.
  - reflexivity.
Defined.

(** X11.  For a parsed document without inline fragment, the first
    extraction rewrites exactly as intended: the rewritten document has the
    directives of the operation without the annotation, and it declares a
    variable of the original exactly when that variable does not occur in
    the annotation or is still referenced somewhere in the rewritten
    document. *)
Theorem rewrite_exact_on_fields r σ d i node res σ1 :
  documentCache σ !! r = None →
  heap σ !! r = Some d →
  parsed d →
  fields_only_document d = true →
  annotation d = Some (i, node) →
  extractDirectiveArguments r σ = (Ok res, σ1) →
  ∃ d', heap σ1 !! ret_doc res = Some d' ∧
        op_directives <$> the_operation d'
        = (λ op, delete i <$> op_directives op) <$> the_operation d ∧
        ∀ x, x ∈ declared d' ↔
             x ∈ declared d ∧
             (x ∈ annotation_variables node → x ∈ referenced d').
Proof.
  intros Hmiss Hr Hp Hfields Ha Hex.
  rewrite (extract_miss r σ d Hmiss Hr Hp), Ha in Hex.
  destruct (key_shape _) as [| |values]; [done..|].
  cbn zeta in Hex. injection Hex as <- <-. cbn [ret_doc heap].
  exists (rewritten i node d). split_and!.
  - apply lookup_snoc.
  - destruct Hp as (_ & op & ds & Hop & _).
    by rewrite (rewritten_operation i node d op Hop), Hop.
  - intros x. rewrite rewritten_declared.
    unfold referenced, rewritten. rewrite reachable_prune.
    rewrite <- (document_complete_on_fields (strip i d))
      by by rewrite fields_only_strip.
    unfold dropped, annotation_variables. rewrite list_elem_of_filter.
    split; (intros [Hd Hx]; split; [done|]).
    + intros Hin. by destruct (decide (x ∈ map name
        (getVariablesFromArguments (getAllArgumentsFromDocument (strip i d)))));
        [|destruct Hx].
    + intros [Hnot Hin]. by apply Hnot, Hx.
Qed.

Lemma rewrite_exact_on_fields_witness :
  ∃ d', heap (extractDirectiveArguments 2 Sample.documents).2 !! 4%nat = Some d' ∧
        op_directives <$> the_operation d'
        = (λ op, delete 0%nat <$> op_directives op)
            <$> the_operation Sample.doc_unused ∧
        ∀ x, x ∈ declared d' ↔
             x ∈ declared Sample.doc_unused ∧
             (x ∈ annotation_variables (Sample.serialize "token") →
              x ∈ referenced d').
Proof.
  apply (rewrite_exact_on_fields 2 Sample.documents Sample.doc_unused 0%nat
           (Sample.serialize "token")
           {| ret_doc := 4;
              ret_args := Some (ListValue [Var {| name := "token" |}]) |}
           (extractDirectiveArguments 2 Sample.documents).2);
    try reflexivity.
  split; [reflexivity|]. eexists _, _.
  split; [reflexivity|]. split; [reflexivity|].
  repeat constructor; by eexists.
Defined.

(** ** The order of the queue *)

Section order_more.

Lemma omap_none {A B} (f : A → option B) (l : list A) :
  Forall (λ x, f x = None) l → omap f l = [].
Proof.
  induction 1 as [|x l Hx _ IH]; [done|].
  cbn [omap list_omap]. by rewrite Hx.
Qed.

Lemma omap_fmap_some {A B} (f : A → option B) (g : B → A) (l : list B) :
  Forall (λ y, f (g y) = Some y) l → omap f (g <$> l) = l.
Proof.
  induction 1 as [|y l Hy _ IH]; [done|].
  rewrite fmap_cons. cbn [omap list_omap]. rewrite Hy. f_equal. apply IH.
Qed.

Lemma keys_no_index {V} (obj : list (string * V)) :
  Forall (λ k, Dict.array_index k = None) (obj.*1) →
  Dict.keys obj = obj.*1.
Proof.
  intros Hall. unfold Dict.keys. rewrite omap_none by done.
  by rewrite filter_all.
Qed.

Lemma entries_no_index {V} (obj : list (string * V)) :
  NoDup (obj.*1) →
  Forall (λ k, Dict.array_index k = None) (obj.*1) →
  Dict.entries obj = obj.
Proof.
  intros Hnd Hall. unfold Dict.entries. rewrite keys_no_index by done.
  by apply read_back.
Qed.

Lemma define_middle {V} key (v old : V) (before after : list (string * V)) :
  key ∉ before.*1 →
  Dict.define key v (before ++ (key, old) :: after)
  = before ++ (key, v) :: after.
Proof.
  induction before as [|[k w] before IH]; simpl; intros Hnot.
  - by rewrite bool_decide_eq_true_2.
  - apply not_elem_of_cons in Hnot as [Hk Hnot].
    rewrite bool_decide_eq_false_2 by done. by rewrite IH.
Qed.

(** The keys of an object whose properties were created in the order of
    [Object.keys] of another object are enumerated in that same order. *)
Lemma keys_of_keys {V W} (obj : list (string * V)) (copy : list (string * W)) :
  copy.*1 = Dict.keys obj → Dict.keys copy = Dict.keys obj.
Proof.
  intros Hcopy. unfold Dict.keys at 1. rewrite Hcopy. unfold Dict.keys.
  set (sorted := merge_sort N.le (omap Dict.array_index (obj.*1))).
  set (others := filter (λ k, Dict.array_index k = None) (obj.*1)).
  assert (Forall (λ n, Dict.array_index (pretty n) = Some n) sorted) as Hidx.
  { apply Forall_forall. intros n Hn. unfold sorted in Hn.
    rewrite merge_sort_Permutation in Hn.
    apply list_elem_of_omap in Hn as (k & _ & Hk).
    by rewrite (array_index_Some _ _ Hk). }
  assert (Forall (λ k, Dict.array_index k = None) others) as Hoth.
  { apply Forall_forall. intros k Hk. unfold others in Hk.
    by apply list_elem_of_filter in Hk as [? _]. }
  rewrite omap_app, (omap_none _ others), app_nil_r by done.
  rewrite omap_fmap_some by done.
  rewrite filter_app, (filter_all _ others) by done.
  rewrite (filter_none _ (pretty <$> sorted)).
  - simpl. f_equal. f_equal.
    apply (Sorted_unique N.le).
    + apply (Sorted_merge_sort N.le).
    + apply (Sorted_merge_sort N.le).
    + apply merge_sort_Permutation.
  - intros k (n & -> & Hn)%list_elem_of_fmap.
    rewrite Forall_forall in Hidx. by rewrite (Hidx n Hn).
Qed.

Lemma map_values_keys {V W} (g : V → W) (l : list (string * V)) :
  (map (λ p, (p.1, g p.2)) l).*1 = l.*1.
Proof. induction l as [|[k v] l IH]; [done|]. simpl. by f_equal. Qed.

Lemma entries_idem {V W} (g : V → W) (obj : list (string * V)) :
  NoDup (obj.*1) →
  Dict.entries (map (λ p, (p.1, g p.2)) (Dict.entries obj))
  = map (λ p, (p.1, g p.2)) (Dict.entries obj).
Proof.
  intros Hnd.
  set (copy := map (λ p : string * V, (p.1, g p.2)) (Dict.entries obj)).
  assert (copy.*1 = Dict.keys obj) as Hkeys.
  { rewrite <- entries_keys. apply map_values_keys. }
  unfold Dict.entries at 1. rewrite (keys_of_keys obj copy Hkeys), <- Hkeys.
  apply read_back; [|done]. by rewrite Hkeys, keys_Permutation.
Qed.

Lemma snapshot_entries σ q :
  NoDup (q.*1) → Dict.entries (snapshot σ q) = snapshot σ q.
Proof. intros Hnd. unfold snapshot. by apply (entries_idem (stored σ)). Qed.

Lemma snapshot_mutations σ q :
  map (λ p : string * StoredEntry, Mutate p.2) (snapshot σ q)
  = map (λ p, Mutate (stored σ p.2)) (Dict.entries q).
Proof. unfold snapshot. by rewrite map_map. Qed.

End order_more.

(** ** The gate, its flag and its queue *)

Section gate_more.

Lemma extractKey_context nt operation σ k σ1 :
  extractKey nt operation σ = (Ok k, σ1) →
  getContext (k_operation k) = getContext operation ∧
  variables (k_operation k) = variables operation ∧
  operationName (k_operation k) = operationName operation.
Proof.
  unfold extractKey. destruct (truthy _).
  { unfold ret. by intros [= <- <-]. }
  unfold bind at 1.
  destruct (extractDirectiveArguments _ _) as [[res|e] σ']; [|done].
  destruct (ret_args res) as [args|].
  - unfold bind, lift, ret. destruct (materializeKey _ _ _); [|done].
    by intros [= <- <-].
  - unfold ret. by intros [= <- <-].
Qed.

Lemma forallb_always {A} (l : list A) : forallb (λ _, true) l = true.
Proof. by induction l. Qed.

End gate_more.

(** X12.  The gate survives a reload within the session through its flag:
    a link made over the flag that [close] wrote starts closed, one made
    over the flag that [open] wrote or over no flag starts open; without
    storage a link always starts open. *)
Theorem gate_flag_round_trip σ local l session :
  isOpen (create true σ (session_open (close true l)) local) = false ∧
  isOpen (create true σ (session_open (open true l)) local) = true ∧
  isOpen (create true σ None local) = true ∧
  isOpen (create false σ session local) = true ∧
  isOpen (close true l) = false ∧ isOpen (close false l) = false.
Proof.
  assert (∀ s, isOpen (create true σ s local) = bool_decide (s ≠ Some OPEN_OFF))
    as Hcreate.
  { intros s. unfold create.
    match goal with
    | |- context [rehydrateQueue true ?l0] =>
        destruct (rehydrate_effect true l0) as (_ & _ & -> & _)
    end. done. }
  assert (session_open (open true l) = Some OPEN_ON) as Hopen.
  { unfold open, rehydrateQueue. simpl. by destruct (local_ops l). }
  rewrite !Hcreate, Hopen. by split_and!.
Qed.

(** X13.  On an open gate, or when the context of the operation skips the
    queue, [request] never defers: if extraction succeeds it calls the
    continuation exactly once with the operation that carries the context
    and the variables of the original, and if extraction throws nothing is
    forwarded.  The queue is left as it was. *)
Theorem request_passes nt operation forward l :
  isOpen l || skipQueue (getContext operation) = true →
  opQueue (request nt operation forward l).2 = opQueue l ∧
  match (request nt operation forward l).1 with
  | Ok (Downstream f operation') =>
      f = forward ∧
      getContext operation' = getContext operation ∧
      variables operation' = variables operation ∧
      since l (request nt operation forward l).2
      = [Forward forward operation' None]
  | Ok (Deferred _ _ _ _) => False
  | Throw _ => since l (request nt operation forward l).2 = []
  end.
Proof.
  intros Hpass. unfold request.
  destruct (extractKey nt operation (store l)) as [[k|e] σ] eqn:Hex;
    cbn [fst snd].
  - destruct (extractKey_context _ _ _ _ _ Hex) as (Hc & Hv & _).
    assert (since l (emit [Forward forward (k_operation k) None]
                       (with_store σ l))
            = [Forward forward (k_operation k) None]) as Hsince.
    { by apply since_app. }
    destruct (k_key k) as [key|]; [|by cbn [fst snd]].
    destruct (negb (truthy (Some key))); [by cbn [fst snd]|].
    cbn [isOpen with_store]. rewrite Hc.
    destruct (isOpen l); [by cbn [fst snd]|].
    simpl in Hpass. rewrite Hpass. by cbn [fst snd].
  - split; [done|]. apply since_app. simpl. by rewrite app_nil_r.
Qed.

Lemma request_passes_witness :
  opQueue (request Sample.nt
             {| query := 1; variables := Some [("id", Js.Str "42")];
                operationName := "M";
                getContext := {| serializationKey := None; skipQueue := true;
                                 optimisticResponse := Js.Undefined |} |}
             7 (Sample.one_queued true)).2
  = opQueue (Sample.one_queued true).
Proof.
  apply (request_passes Sample.nt
           {| query := 1; variables := Some [("id", Js.Str "42")];
              operationName := "M";
              getContext := {| serializationKey := None; skipQueue := true;
                               optimisticResponse := Js.Undefined |} |}
           7 (Sample.one_queued true)).
  reflexivity.
Defined.

(** X14.  [request] by itself never enqueues: it leaves the queue, the
    stored snapshot, the pending batches and the gate as they are, whatever
    it returns.  On a closed gate an operation with a key whose context does
    not skip the queue gets a deferred observable and nothing is forwarded;
    the entry is made only when that observable is subscribed. *)
Theorem request_never_enqueues nt operation forward l :
  opQueue (request nt operation forward l).2 = opQueue l ∧
  local_ops (request nt operation forward l).2 = local_ops l ∧
  pending (request nt operation forward l).2 = pending l ∧
  observers (request nt operation forward l).2 = observers l ∧
  isOpen (request nt operation forward l).2 = isOpen l ∧
  ∀ k σ key,
    extractKey nt operation (store l) = (Ok k, σ) →
    k_key k = Some key → key ≠ "" →
    isOpen l = false → skipQueue (getContext operation) = false →
    request nt operation forward l
    = (Ok (Deferred key (k_operation k) forward
             (optimisticResponse (getContext operation))),
       with_store σ l).
Proof.
  split_and!.
  - apply request_effect.
  - apply request_effect.
  - unfold request.
    destruct (extractKey nt operation (store l)) as [[k|e] σ]; [|done].
    cbn zeta. destruct (k_key k) as [key|]; [|done].
    by repeat case_match.
  - apply request_effect.
  - apply request_effect.
  - intros k σ key Hex Hkey Hne Hclosed Hskip. unfold request.
    destruct (extractKey_context _ _ _ _ _ Hex) as (Hc & _).
    rewrite Hex. cbn zeta. rewrite Hkey.
    assert (truthy (Some key) = true) as -> by by apply bool_decide_eq_true_2.
    cbn [negb isOpen with_store]. by rewrite Hclosed, Hc, Hskip.
Qed.

(** With storage, an enqueue leaves the stored snapshot equal to the
    snapshot of the queue in memory. *)
Lemma mirrored_after key operation forward optimistic l :
  mirrored (subscribe true (Deferred key operation forward optimistic) l).2.
Proof. done. Qed.

(** X15.  A subscription that is cancelled before the gate opens is
    removed from the queue, and whatever happens afterwards its entry is
    never forwarded. *)
Theorem cancelled_is_never_forwarded nt hasStorage l key operation forward
    optimistic acts :
  wf_link l →
  (subscribe hasStorage (Deferred key operation forward optimistic) l).1
  = Some {| sub_key := key; sub_observer := observers l |} ∧
  entry_of key
    (unsubscribe hasStorage {| sub_key := key; sub_observer := observers l |}
       (subscribe hasStorage (Deferred key operation forward optimistic) l).2)
  = None ∧
  forwards (observers l)
    (since
       (unsubscribe hasStorage {| sub_key := key; sub_observer := observers l |}
          (subscribe hasStorage (Deferred key operation forward optimistic) l).2)
       (run nt hasStorage acts
          (unsubscribe hasStorage
             {| sub_key := key; sub_observer := observers l |}
             (subscribe hasStorage
                (Deferred key operation forward optimistic) l).2)))
  = 0%nat.
Proof.
  intros Hwf.
  destruct (subscribe_effect hasStorage
              (Deferred key operation forward optimistic) l)
    as (Hs & Hq & Hn & _ & _ & Hl).
  set (l1 := (subscribe hasStorage
                (Deferred key operation forward optimistic) l).2) in *.
  set (s := {| sub_key := key; sub_observer := observers l |}) in *.
  destruct (unsubscribe_effect hasStorage s l1) as (Hq' & Hn' & _).
  rewrite bool_decide_eq_true_2 in Hq' by (rewrite Hl; left).
  split_and!.
  - done.
  - unfold entry_of. rewrite Hq'. apply get_del_eq.
  - destruct (run_gone nt hasStorage (observers l) acts
                (unsubscribe hasStorage s l1)) as (evs & Ht & Hev).
    + unfold queued_observers. rewrite Hq', Hq.
      intros ([k e] & Ho & Hin)%list_elem_of_fmap. simpl in Ho.
      apply list_elem_of_filter in Hin as [Hk Hin]. simpl in Hk.
      apply set_elem_of in Hin as [Heq|[Hin _]]; [by simplify_eq| |apply Hwf].
      destruct Hwf as (_ & _ & Hlt). rewrite Forall_forall in Hlt.
      assert (entry_observer e < observers l)%nat; [|lia].
      apply Hlt. unfold queued_observers.
      by apply (list_elem_of_fmap_2
                  (λ p : string * OperationQueueEntry, entry_observer p.2)
                  _ (k, e)).
    + rewrite Hn', Hn. lia.
    + by rewrite (since_app _ _ _ Ht).
Qed.

Lemma cancelled_is_never_forwarded_witness :
  forwards 0
    (since
       (unsubscribe true {| sub_key := "k1"; sub_observer := 0 |}
          (Sample.one_queued true))
       (run Sample.nt true [DoOpen; DoClose; DoOpen]
          (unsubscribe true {| sub_key := "k1"; sub_observer := 0 |}
             (Sample.one_queued true))))
  = 0%nat.
Proof.
  apply (cancelled_is_never_forwarded Sample.nt true (Sample.closed_link true)
           "k1" (Sample.operation 0 "id" "1" (Sample.override "k1")) 7
           Js.Undefined [DoOpen; DoClose; DoOpen]).
  apply wf_closed_link.
Defined.

(** X16.  Enqueuing under a key that is already queued, other than
    [__proto__], replaces the entry where it stands: the entries before and
    after it keep their places, so the superseding entry is flushed where
    the superseded one would have been.  An entry under a new key goes
    last. *)
Theorem superseding_keeps_place hasStorage key operation forward optimistic l :
  key ≠ Js.PROTO →
  NoDup (opQueue l).*1 →
  (∀ before old after,
     opQueue l = before ++ (key, old) :: after →
     opQueue (subscribe hasStorage
                (Deferred key operation forward optimistic) l).2
     = before
         ++ (key, entry_for operation forward optimistic (observers l))
         :: after) ∧
  (key ∉ (opQueue l).*1 →
   opQueue (subscribe hasStorage
              (Deferred key operation forward optimistic) l).2
   = opQueue l
       ++ [(key, entry_for operation forward optimistic (observers l))]).
Proof.
  intros Hkey Hnd.
  destruct (subscribe_effect hasStorage
              (Deferred key operation forward optimistic) l) as (_ & -> & _).
  rewrite set_define by done. fold (entry_for operation forward optimistic
                                      (observers l)).
  split.
  - intros before old after Hq. rewrite Hq in *.
    apply define_middle.
    rewrite fmap_app, fmap_cons in Hnd. apply NoDup_app in Hnd as (_ & Hb & _).
    intros Hin. apply (Hb _ Hin). left.
  - intros Hnew.
    destruct (define_shape key (entry_for operation forward optimistic
                                  (observers l)) (opQueue l))
      as [(l1 & w & l2 & Hq & _)|[_ ->]]; [|done].
    destruct Hnew. rewrite Hq, fmap_app, fmap_cons, elem_of_app, elem_of_cons.
    right. by left.
Qed.

Lemma superseding_keeps_place_witness :
  opQueue (subscribe true Sample.second (Sample.one_queued true)).2
  = [("k1", entry_for (Sample.operation 0 "id" "2" (Sample.override "k1")) 8
              Js.Undefined 1)].
Proof.
  apply (proj1 (superseding_keeps_place true "k1"
                  (Sample.operation 0 "id" "2" (Sample.override "k1")) 8
                  Js.Undefined (Sample.one_queued true)
                  ltac:(discriminate)
                  ltac:(repeat constructor; by intros ?%elem_of_nil))
           [] (entry_for (Sample.operation 0 "id" "1" (Sample.override "k1")) 7
                 Js.Undefined 0) []).
  reflexivity.
Defined.

(** X17.  When no key of the queue is an array index, as for the keys that
    [materializeKey] makes, [open] forwards the queued entries in the order
    in which their keys were first enqueued. *)
Theorem flush_in_creation_order hasStorage l :
  NoDup (opQueue l).*1 →
  Forall (λ k, Dict.array_index k = None) (opQueue l).*1 →
  Dict.entries (opQueue l) = opQueue l ∧
  ∃ issued : Snapshot,
    trace (open hasStorage l)
    = trace l ++ map (λ p, Mutate p.2) issued
        ++ map (λ p, Forward (entry_forward p.2) (entry_operation p.2)
                             (Some (entry_observer p.2)))
               (opQueue l).
Proof.
  intros Hnd Hall.
  pose proof (entries_no_index (opQueue l) Hnd Hall) as Hentries.
  split; [done|].
  destruct (open_effect hasStorage l) as (_ & _ & _ & _ & es & Ht).
  exists es. rewrite Ht. unfold flush. by rewrite Hentries.
Qed.

Lemma flush_in_creation_order_witness :
  Dict.entries (opQueue (Sample.two_queued true))
  = opQueue (Sample.two_queued true).
Proof.
  apply (flush_in_creation_order true (Sample.two_queued true)).
  - repeat constructor. by intros ?%elem_of_nil.
  - by repeat constructor.
Defined.

(** X18.  With storage, when the stored snapshot is the one of the queue
    (as after every enqueue and cancellation), [open] dispatches every
    queued entry twice: the entry read back from the snapshot goes to the
    client as a mutation, and then the entry in memory goes to its
    continuation. *)
Theorem open_reissues_and_forwards l :
  NoDup (opQueue l).*1 →
  mirrored l →
  trace (open true l)
  = trace l
      ++ map (λ p, Mutate (stored (store l) p.2)) (Dict.entries (opQueue l))
      ++ map (λ p, Forward (entry_forward p.2) (entry_operation p.2)
                           (Some (entry_observer p.2)))
             (Dict.entries (opQueue l)) ∧
  pending (open true l) = pending l ++ [length (opQueue l)].
Proof.
  intros Hnd Hm. unfold mirrored in Hm.
  unfold open, rehydrateQueue. simpl. rewrite Hm. simpl.
  rewrite snapshot_entries, snapshot_mutations by done.
  rewrite length_map, (Permutation_length (entries_Permutation _ Hnd)).
  split; [|done]. by rewrite app_assoc.
Qed.

Lemma open_reissues_and_forwards_witness :
  pending (open true (Sample.two_queued true))
  = pending (Sample.two_queued true)
      ++ [length (opQueue (Sample.two_queued true))].
Proof.
  apply (open_reissues_and_forwards (Sample.two_queued true)).
  - repeat constructor. by intros ?%elem_of_nil.
  - reflexivity.
Defined.

(** X19.  A queue survives a restart through the storage: a link made over
    the snapshot that an enqueue left hands every entry that was queued to
    the client as a mutation, once each, in the order of the keys; its own
    queue starts empty, so the continuations and observers of the old
    process are not called. *)
Theorem restart_reissues_queue key operation forward optimistic l σ session :
  wf_link l →
  trace (create true σ session
           (local_ops (subscribe true
                         (Deferred key operation forward optimistic) l).2))
  = map (λ p, Mutate (stored (store l) p.2))
        (Dict.entries
           (opQueue (subscribe true
                       (Deferred key operation forward optimistic) l).2)) ∧
  opQueue (create true σ session
             (local_ops (subscribe true
                           (Deferred key operation forward optimistic) l).2))
  = [] ∧
  pending (create true σ session
             (local_ops (subscribe true
                           (Deferred key operation forward optimistic) l).2))
  = [length (opQueue (subscribe true
                        (Deferred key operation forward optimistic) l).2)].
Proof.
  intros Hwf.
  pose proof (subscribe_wf true (Deferred key operation forward optimistic)
                l Hwf) as (Hnd & _).
  pose proof (mirrored_after key operation forward optimistic l) as Hm.
  unfold mirrored in Hm.
  set (l1 := (subscribe true (Deferred key operation forward optimistic) l).2)
    in *.
  unfold create, rehydrateQueue. rewrite Hm. simpl.
  rewrite snapshot_entries, snapshot_mutations by done.
  split_and!; [done|done|]. rewrite length_map. f_equal.
  apply (Permutation_length (entries_Permutation _ Hnd)).
Qed.

Lemma restart_reissues_queue_witness :
  pending (create true Sample.documents None
             (local_ops (Sample.one_queued true)))
  = [length (opQueue (Sample.one_queued true))].
Proof.
  apply (restart_reissues_queue "k1"
           (Sample.operation 0 "id" "1" (Sample.override "k1")) 7 Js.Undefined
           (Sample.closed_link true) Sample.documents None).
  apply wf_closed_link.
Defined.

(** X20.  The success of a rehydration batch removes whatever snapshot is
    stored when it arrives: an entry enqueued after [open], under a key
    other than [__proto__], while the batch was pending, stays in the queue
    in memory and loses its stored copy. *)
Theorem late_success_drops_snapshot l saved key operation forward optimistic :
  key ≠ Js.PROTO →
  local_ops l = Some saved →
  entry_of key
    (settle (length (pending l)) (λ _, true)
       (subscribe true (Deferred key operation forward optimistic)
          (close true (open true l))).2)
  = Some (entry_for operation forward optimistic (observers l)) ∧
  local_ops (subscribe true (Deferred key operation forward optimistic)
               (close true (open true l))).2
  = Some (snapshot (store l)
            [(key, entry_for operation forward optimistic (observers l))]) ∧
  local_ops
    (settle (length (pending l)) (λ _, true)
       (subscribe true (Deferred key operation forward optimistic)
          (close true (open true l))).2)
  = None.
Proof.
  intros Hkey Hs.
  assert (pending (subscribe true (Deferred key operation forward optimistic)
                     (close true (open true l))).2
          = pending l
              ++ [length (map (λ p : string * StoredEntry, Mutate p.2)
                              (Dict.entries saved))]) as Hp.
  { unfold open, rehydrateQueue. simpl. rewrite Hs. done. }
  assert (opQueue (subscribe true (Deferred key operation forward optimistic)
                     (close true (open true l))).2
          = [(key, entry_for operation forward optimistic (observers l))])
    as Hq.
  { destruct (subscribe_effect true (Deferred key operation forward optimistic)
                (close true (open true l))) as (_ & -> & _).
    rewrite set_define by done.
    unfold open, rehydrateQueue. simpl. by rewrite Hs. }
  assert (local_ops (subscribe true
                       (Deferred key operation forward optimistic)
                       (close true (open true l))).2
          = Some (snapshot (store l)
                    [(key, entry_for operation forward optimistic
                             (observers l))])) as Hl.
  { unfold subscribe, enqueue, persist. cbn [snd local_ops with_local].
    cbn [opQueue with_queue]. rewrite set_define by done.
    unfold open, rehydrateQueue. simpl. by rewrite Hs. }
  unfold settle, entry_of. rewrite Hp, lookup_snoc, forallb_always.
  unfold with_local, with_pending. cbn [opQueue local_ops].
  rewrite Hq. split_and!; [|done|done].
  unfold Dict.get. simpl. by rewrite decide_True.
Qed.

Lemma late_success_drops_snapshot_witness :
  local_ops
    (settle (length (pending (Sample.one_queued true))) (λ _, true)
       (subscribe true Sample.second
          (close true (open true (Sample.one_queued true)))).2)
  = None.
Proof.
  apply (late_success_drops_snapshot (Sample.one_queued true)
           (default [] (local_ops (Sample.one_queued true))) "k1"
           (Sample.operation 0 "id" "2" (Sample.override "k1")) 8
           Js.Undefined); [discriminate|reflexivity].
Defined.

(** ** Integer literals in the key *)

(** X21.  Integer literals survive the key: a key argument that lists the
    decimal literals of integers of magnitude at most 2^53 materializes to
    the JSON array of those same literals. *)
Theorem integer_key_round_trip nt zs variables :
  Forall (λ z, Z.abs z ≤ Js.max_safe) zs →
  materializeKey nt (ListValue (map (λ z : Z, IntValue (pretty z)) zs))
    variables
  = Ok ("[" +:+ Js.join "," (map pretty zs) +:+ "]").
Proof.
  intros Hall. unfold materializeKey. rewrite integers_resolve.
  cbn [bindR]. unfold Js.stringify_array. do 3 f_equal.
  rewrite map_map. f_equal. apply map_ext_Forall.
  eapply Forall_impl; [exact Hall|]. intros z Hz.
  cbn [Js.property Js.number_text default]. by rewrite bool_decide_true.
Qed.

Lemma integer_key_round_trip_witness :
  materializeKey Sample.nt
    (ListValue (map (λ z : Z, IntValue (pretty z)) [-7; 0; 42])) None
  = Ok ("[" +:+ Js.join "," (map pretty [-7; 0; 42]) +:+ "]").
Proof.
  apply (integer_key_round_trip Sample.nt [-7; 0; 42] None).
  repeat constructor; unfold Js.max_safe; lia.
Defined.

(** X23.  A variable of the key list that has no binding of its own and
    bears the name of a property that every object inherits, such as
    [toString], raises no error: the membership test finds the inherited
    property, and the key holds [null] in the place of the variable, or
    [{}] under the name [__proto__].  A name that is neither an own nor an
    inherited property raises the error of the unbound variable. *)
Theorem inherited_name_is_bound nt x bindings :
  x ∉ bindings.*1 →
  materializeKey nt (ListValue [Var {| name := x |}]) (Some bindings)
  = if decide (x ∈ Js.object_prototype.*1)
    then Ok (if decide (x = Js.PROTO) then "[{}]" else "[null]")
    else Throw (Error ("No value supplied for variable $" +:+ x
                         +:+ " used in @serialize key")).
Proof.
  intros Hown. unfold materializeKey. cbn [mapR valueForArgument name].
  case_decide as Hinh.
  - rewrite getVariableOrDie_inherited by done. by case_decide.
  - by rewrite getVariableOrDie_unbound.
Qed.

Lemma inherited_name_is_bound_witness :
  materializeKey Sample.nt (ListValue [Var {| name := "toString" |}]) (Some [])
  = Ok "[null]".
Proof.
  apply (inherited_name_is_bound Sample.nt "toString" []).
  apply not_elem_of_nil.
Defined.
